(** * Pendulum dynamics, cost, goal predicate and comparison harness

    A shallow embedding of [dynamics/pendulum.py].  The numerical code of
    that file is written once against the Keras backend ([KK.sin],
    [KK.square], [KK.mod], tensor arithmetic) and against numpy
    ([np.cos], comparisons); it is embedded here once, over an abstract
    scalar type, and then read at two scalar types:

    - the real numbers, the idealisation in which the formulas of the
      pendulum are stated;
    - IEEE-754 single precision (Rocq's [SpecFloat] at precision 24), the
      dtype the Keras graph really computes in, for the questions that
      are decided by machine numbers: the range of the normalized angle,
      the sign and the finiteness of the cost. *)

From Stdlib Require Import Reals Lra Lia ZArith QArith Qreals List Bool.
From Stdlib Require Import Floats.SpecFloat Machin.
Import ListNotations.

Set Implicit Arguments.
Close Scope Q_scope.

(* ================================================================== *)
(** * Scalars: the operations the source uses *)
(* ================================================================== *)

(** Arithmetic of the tensor dtype.  [lit q] is the Python float constant
    [q] once it meets a tensor; [lit_pi q] is the Python float
    [q * np.pi] (computed by Python before it meets a tensor). *)
Class Arith (T : Type) := {
  lit : Q -> T;
  lit_pi : Q -> T;
  tadd : T -> T -> T;
  tsub : T -> T -> T;
  tmul : T -> T -> T;
  tdiv : T -> T -> T;
  tsquare : T -> T;          (* KK.square *)
  tmod : T -> T -> T         (* KK.mod: modulo with the sign of the divisor *)
}.

(** [KK.sin] and [np.cos]. *)
Class Trig (T : Type) := {
  tsin : T -> T;
  tcos : T -> T
}.

(** numpy's comparisons on scalars. *)
Class Cmp (T : Type) := {
  tleb : T -> T -> bool;     (* a <= b *)
  teqb : T -> T -> bool      (* a == b *)
}.

(** [a >= b] *)
Definition tgeb {T} `{Cmp T} (a b : T) : bool := tleb b a.

Declare Scope tensor_scope.
Delimit Scope tensor_scope with tensor.
Infix "+" := tadd : tensor_scope.
Infix "-" := tsub : tensor_scope.
Infix "*" := tmul : tensor_scope.
Infix "/" := tdiv : tensor_scope.

(* ================================================================== *)
(** * Two-dimensional arrays *)
(* ================================================================== *)

(** A [(rows, columns)] array is the list of its rows. *)
Definition matrix (T : Type) := list (list T).

(** [x[:, :n]] *)
Definition cols_to {T} (n : nat) (x : matrix T) : matrix T := map (firstn n) x.

(** [x[:, n:]] *)
Definition cols_from {T} (n : nat) (x : matrix T) : matrix T := map (skipn n) x.

(** [x[i, j]]; [None] is the index error of an absent row or column. *)
Definition item {T} (i j : nat) (x : matrix T) : option T :=
  match nth_error x i with
  | Some row => nth_error row j
  | None => None
  end.

(** A scalar broadcast against every entry of an array. *)
Definition broadcast {T} (f : T -> T) (x : matrix T) : matrix T := map (map f) x.

(** [concatenate([a, b])] along the last axis. *)
Fixpoint concatenate {T} (a b : matrix T) : matrix T :=
  match a, b with
  | ra :: a', rb :: b' => (ra ++ rb) :: concatenate a' b'
  | _, _ => []
  end.

(* ================================================================== *)
(** * The pendulum: dynamics and cost *)
(* ================================================================== *)

Section Pendulum.
Context {T : Type} `{Arith T} `{Trig T}.
Local Open Scope tensor_scope.

(** [pendulum_dynamics(x_combined)]: [x_combined] has the two state
    columns followed by the control column(s). *)
Definition pendulum_dynamics (x_combined : matrix T) : option (matrix T) :=
  let x := cols_to 2 x_combined in
  let u := cols_from 2 x_combined in
  let g := 10%Q in
  let l := 1%Q in
  let m := 1%Q in
  let deltaT := (5 # 100)%Q in
  match item 0 0 x, item 0 1 x with
  | Some th, Some thdot =>
      let newthdot :=
        broadcast (fun ui =>
          thdot + (lit (-3 * g / (2 * l))%Q * tsin (th + lit_pi 1)
                   + lit 3 / (lit m * tsquare (lit l)) * ui) * lit deltaT) u in
      let newth := broadcast (fun v => th + v * lit deltaT) newthdot in
      Some (concatenate newth newthdot)
  | _, _ => None
  end.

(** The local [normalized_th] of [pendulum_cost]. *)
Definition normalized_th (th : T) : T :=
  tmod (th + lit_pi 1) (lit_pi 2) - lit_pi 1.

(** [pendulum_cost(x_combined)] *)
Definition pendulum_cost (x_combined : matrix T) : option (matrix T) :=
  let x := cols_to 2 x_combined in
  let u := cols_from 2 x_combined in
  match item 0 0 x, item 0 1 x with
  | Some th, Some thdot =>
      Some (broadcast (fun ui =>
              tsquare (normalized_th th)
              + lit (1 # 10) * tsquare thdot
              + lit (1 # 1000) * tsquare ui) u)
  | _, _ => None
  end.
End Pendulum.

(* ================================================================== *)
(** * The real numbers as scalars *)
(* ================================================================== *)

(** Modulo with the sign of the divisor: [x - y * floor (x / y)]. *)
Definition Rfloormod (x y : R) : R := (x - y * IZR (Zfloor (x / y)))%R.

#[export] Instance R_Arith : Arith R := {|
  lit := Q2R;
  lit_pi := fun q => (Q2R q * PI)%R;
  tadd := Rplus;
  tsub := Rminus;
  tmul := Rmult;
  tdiv := Rdiv;
  tsquare := fun x => (x * x)%R;
  tmod := Rfloormod
|}.

#[export] Instance R_Trig : Trig R := {| tsin := sin; tcos := cos |}.

#[export] Instance R_Cmp : Cmp R := {|
  tleb := fun a b => if Rle_dec a b then true else false;
  teqb := fun a b => if Req_dec_T a b then true else false
|}.

(* ================================================================== *)
(** * Goals: generator and checker *)
(* ================================================================== *)

(** [np.finfo('float32').eps], that is 2^-23. *)
Definition float32_eps : Q := 1 # 8388608.

(** [np.random.randint(lo, hi)] can return [k]. *)
Definition randint (lo hi k : Z) : Prop := (lo <= k < hi)%Z.

(** What a call of the checker does: whether it stopped in the debugger
    ([ipdb.set_trace()]) on its way, and the value of its [return]
    expression ([None]: the expression raised an index error). *)
Record checker_run := {
  entered_debugger : bool;
  answer : option bool
}.

Section Goal.
Context {T : Type} `{Arith T} `{Trig T} `{Cmp T}.
Local Open Scope tensor_scope.

(** [pendulum_goal_generator()], for the draw [k] of
    [np.random.randint(-3, 4)]: the 1 x 2 matrix [[2*pi*k, 0.0]]. *)
Definition pendulum_goal_generator (k : Z) : matrix T :=
  [[lit_pi (2 * inject_Z k)%Q; lit 0]].

(** [pendulum_goal_checker(x)].  The [and] of the source is lazy: the
    velocity [x[0, 1]] is only read when the angle test succeeded. *)
Definition pendulum_goal_checker (x : matrix T) : checker_run :=
  {| entered_debugger := Nat.eqb (length x) 2;
     answer :=
       match item 0 0 x with
       | None => None
       | Some th =>
           if tleb (lit 1 - tcos th) (lit float32_eps) then
             match item 0 1 x with
             | Some thdot => Some (teqb thdot (lit 0))
             | None => None
             end
           else Some false
       end |}.
End Goal.

(* ================================================================== *)
(** * Exceptions *)
(* ================================================================== *)

Inductive exn := IndexError | ValueError.

Inductive outcome (A : Type) :=
| Done (a : A)
| Raised (e : exn).
Arguments Done {A} a.
Arguments Raised {A} e.

Definition bind {A B} (m : outcome A) (k : A -> outcome B) : outcome B :=
  match m with
  | Done a => k a
  | Raised e => Raised e
  end.

Notation "x <- m ;; k" := (bind m (fun x => k))
  (at level 61, m at next level, right associativity).
Notation "' p <- m ;; k" := (bind m (fun x => let 'p := x in k))
  (at level 61, p pattern, m at next level, right associativity).

(* ================================================================== *)
(** * numpy arrays of up to two dimensions *)
(* ================================================================== *)

Inductive ndarray (T : Type) :=
| Arr0 (v : T)               (* a scalar, shape () *)
| Arr1 (l : list T)          (* shape (n,) *)
| Arr2 (m : matrix T).       (* shape (rows, columns) *)
Arguments Arr0 {T} v.
Arguments Arr1 {T} l.
Arguments Arr2 {T} m.

Section Numpy.
Context {T : Type}.

(** [np.expand_dims(v, axis=0)] of a vector: one row. *)
Definition expand_dims_0 (v : list T) : matrix T := [v].

(** [np.expand_dims(v, axis=1)] of a vector: one column. *)
Definition expand_dims_1 (v : list T) : matrix T := map (fun a => [a]) v.

Fixpoint cons_columns (r : list T) (m : matrix T) : matrix T :=
  match r, m with
  | a :: r', row :: m' => (a :: row) :: cons_columns r' m'
  | _, _ => []
  end.

Fixpoint transpose (m : matrix T) : matrix T :=
  match m with
  | [] => []
  | [r] => expand_dims_1 r
  | r :: m' => cons_columns r (transpose m')
  end.

(** [a.T]: a vector is its own transpose. *)
Definition T_ (a : ndarray T) : ndarray T :=
  match a with
  | Arr2 m => Arr2 (transpose m)
  | _ => a
  end.

(** [np.squeeze(a)]: the axes of length 1 are dropped. *)
Definition squeeze (a : ndarray T) : ndarray T :=
  match a with
  | Arr0 v => Arr0 v
  | Arr1 [v] => Arr0 v
  | Arr1 l => Arr1 l
  | Arr2 [[v]] => Arr0 v
  | Arr2 [r] => Arr1 r
  | Arr2 m =>
      if forallb (fun r => Nat.eqb (length r) 1) m then Arr1 (concat m) else Arr2 m
  end.

Section Elementwise.
Variable f : T -> T -> T.

(** Two vectors under numpy's broadcasting: equal lengths, or one of
    them of length 1. *)
Definition bcast_vec (l1 l2 : list T) : outcome (list T) :=
  match l1, l2 with
  | [a], _ => Done (map (f a) l2)
  | _, [b] => Done (map (fun x => f x b) l1)
  | _, _ =>
      if Nat.eqb (length l1) (length l2)
      then Done (map (fun p => f (fst p) (snd p)) (combine l1 l2))
      else Raised ValueError
  end.

Fixpoint bcast_rows (m1 m2 : matrix T) : outcome (matrix T) :=
  match m1, m2 with
  | r1 :: m1', r2 :: m2' =>
      r <- bcast_vec r1 r2 ;; m <- bcast_rows m1' m2' ;; Done (r :: m)
  | _, _ => Done []
  end.

Definition bcast_mat (m1 m2 : matrix T) : outcome (matrix T) :=
  match m1, m2 with
  | [r], _ => bcast_rows (map (fun _ => r) m2) m2
  | _, [r] => bcast_rows m1 (map (fun _ => r) m1)
  | _, _ =>
      if Nat.eqb (length m1) (length m2) then bcast_rows m1 m2
      else Raised ValueError
  end.

(** [a (op) b] on arrays. *)
Definition elementwise (a b : ndarray T) : outcome (ndarray T) :=
  match a, b with
  | Arr0 x, Arr0 y => Done (Arr0 (f x y))
  | Arr0 x, Arr1 l => Done (Arr1 (map (f x) l))
  | Arr1 l, Arr0 y => Done (Arr1 (map (fun x => f x y) l))
  | Arr0 x, Arr2 m => Done (Arr2 (map (map (f x)) m))
  | Arr2 m, Arr0 y => Done (Arr2 (map (map (fun x => f x y)) m))
  | Arr1 l1, Arr1 l2 => l <- bcast_vec l1 l2 ;; Done (Arr1 l)
  | Arr1 l, Arr2 m => r <- bcast_mat [l] m ;; Done (Arr2 r)
  | Arr2 m, Arr1 l => r <- bcast_mat m [l] ;; Done (Arr2 r)
  | Arr2 m1, Arr2 m2 => r <- bcast_mat m1 m2 ;; Done (Arr2 r)
  end.
End Elementwise.

(** The entries of an array, in storage order. *)
Definition entries (a : ndarray T) : list T :=
  match a with
  | Arr0 v => [v]
  | Arr1 l => l
  | Arr2 m => concat m
  end.

Definition amap (f : T -> T) (a : ndarray T) : ndarray T :=
  match a with
  | Arr0 v => Arr0 (f v)
  | Arr1 l => Arr1 (map f l)
  | Arr2 m => Arr2 (map (map f) m)
  end.
End Numpy.

Section NumpyArith.
Context {T : Type} `{Arith T}.

(** [np.square(a)] *)
Definition np_square (a : ndarray T) : ndarray T := amap (fun v => tmul v v) a.

(** [np.sum(a)]: the entries added up from 0. *)
Definition np_sum (a : ndarray T) : T := fold_left tadd (entries a) (lit 0).
End NumpyArith.

(* ================================================================== *)
(** * The Keras model of [Pendulum.__init__] *)
(* ================================================================== *)

Section Model.
Context {T : Type} `{Arith T} `{Trig T}.

(** Keras makes every array it is fed at least two-dimensional: a vector
    of length [n] becomes a column of [n] samples. *)
Definition standardize (a : ndarray T) : outcome (matrix T) :=
  match a with
  | Arr2 m => Done m
  | Arr1 l => Done (expand_dims_1 l)
  | Arr0 _ => Raised ValueError
  end.

(** Every sample of [m] has [n] features, the shape its [Input] layer
    declares; Keras refuses an array that has another. *)
Definition has_features (n : nat) (m : matrix T) : bool :=
  forallb (fun r => Nat.eqb (length r) n) m.

(** [self.mdl.predict([x, u])]: the inputs [x_in = Input(shape=(2,))] and
    [u_in = Input(shape=(1,))] are concatenated and go through the two
    [Lambda] layers; the result is the pair of their outputs. *)
Definition predict (x u : ndarray T) : outcome (matrix T * matrix T) :=
  x_in <- standardize x ;;
  u_in <- standardize u ;;
  if has_features 2 x_in && has_features 1 u_in
     && Nat.eqb (length x_in) (length u_in)
  then
    let combined_inputs := concatenate x_in u_in in
    match pendulum_dynamics combined_inputs, pendulum_cost combined_inputs with
    | Some new_x, Some cost => Done (new_x, cost)
    | _, _ => Raised IndexError
    end
  else Raised ValueError.
End Model.

(* ================================================================== *)
(** * The reference simulator *)
(* ================================================================== *)

(** What the harness uses of the gym environment: [reset()], the
    attribute [state] (a vector), and [step(u)], which returns the next
    observation and the reward.  The environment is a value here; a call
    returns the environment it leaves behind. *)
Record Env (T : Type) := {
  env_t : Type;
  reset : env_t -> env_t * list T;
  state : env_t -> list T;
  step : env_t -> list T -> env_t * (list T * T)
}.

(* ================================================================== *)
(** * The comparison harness *)
(* ================================================================== *)

(** The lines the harness prints between its flag banners. *)
Inductive flag := FlagState (tidx : nat) | FlagLoss (tidx : nat).

(** What a run has printed and accumulated so far: the pair
    [(state_diff, loss_diff)] printed at every step and the flags raised
    (both latest first), and the two running totals. *)
Record totals (T : Type) := {
  total_state_diff : T;
  total_loss_diff : T;
  diffs : list (T * T);
  flags : list flag
}.

Section Harness.
Context {T : Type} `{Arith T} `{Trig T} `{Cmp T}.
Variable E : Env T.

(** [env.action_space.sample()]: the [n]-th draw, a vector. *)
Variable sample : nat -> list T.

(** [np.sum(np.square(np.squeeze(a) - np.squeeze(b)))] *)
Definition squared_difference (a b : ndarray T) : outcome T :=
  d <- elementwise tsub (squeeze a) (squeeze b) ;;
  Done (np_sum (np_square d)).

(** [np.sum(np.square(np.squeeze(a) + np.squeeze(b)))] *)
Definition squared_sum (a b : ndarray T) : outcome T :=
  d <- elementwise tadd (squeeze a) (squeeze b) ;;
  Done (np_sum (np_square d)).

(** The part of the loop body that the two harnesses share word for word:
    the two differences of step [tidx], and what becomes of the totals. *)
Definition account (tidx : nat) (env_x_t1 : list T) (env_loss_t : T)
    (k_res : matrix T * matrix T) (acc : totals T) : outcome (totals T) :=
  let k_x_t1 := fst k_res in
  let k_loss_t := snd k_res in
  state_diff <- squared_difference (Arr1 env_x_t1) (Arr2 k_x_t1) ;;
  loss_diff <- squared_sum (Arr0 env_loss_t) (Arr2 k_loss_t) ;;
  let acc :=
    {| total_state_diff := total_state_diff acc;
       total_loss_diff := total_loss_diff acc;
       diffs := (state_diff, loss_diff) :: diffs acc;
       flags := flags acc |} in
  let acc :=
    if tgeb state_diff (lit float32_eps) then
      {| total_state_diff := tadd (total_state_diff acc) state_diff;
         total_loss_diff := total_loss_diff acc;
         diffs := diffs acc;
         flags := FlagState tidx :: flags acc |}
    else acc in
  let acc :=
    if tgeb loss_diff (lit float32_eps) then
      {| total_state_diff := total_state_diff acc;
         total_loss_diff := tadd (total_loss_diff acc) loss_diff;
         diffs := diffs acc;
         flags := FlagLoss tidx :: flags acc |}
    else acc in
  Done acc.

Definition no_totals : totals T :=
  {| total_state_diff := lit 0; total_loss_diff := lit 0;
     diffs := []; flags := [] |}.

(** The loop of [compare_to_gym]; [x_t] is what the variable [x_t] holds. *)
Fixpoint compare_to_gym_loop (tidxs : list nat) (env : env_t E)
    (x_t : ndarray T) (acc : totals T) : outcome (totals T) :=
  match tidxs with
  | [] => Done acc
  | tidx :: rest =>
      let u_t := sample tidx in
      let '(env', (env_obs_t1, env_loss_t)) := step E env u_t in
      let env_x_t1 := state E env' in
      k_res <- predict (T_ x_t) (Arr2 (expand_dims_0 u_t)) ;;
      acc' <- account tidx env_x_t1 env_loss_t k_res acc ;;
      compare_to_gym_loop rest env' (Arr1 env_x_t1) acc'
  end.

(** [Pendulum.compare_to_gym(time_steps)] on the environment [env] that
    [gym.make] returned. *)
Definition compare_to_gym (time_steps : nat) (env : env_t E)
    : outcome (totals T) :=
  let '(env, obs_t) := reset E env in
  let x_t := Arr2 (expand_dims_1 (state E env)) in
  compare_to_gym_loop (seq 0 time_steps) env x_t no_totals.

(** [us[tidx] = env.action_space.sample()]: the draw has to be a single
    number to fit the slot. *)
Definition presample (total_us : nat) : outcome unit :=
  if forallb (fun tidx => Nat.eqb (length (sample tidx)) 1) (seq 0 total_us)
  then Done tt else Raised ValueError.

(** [obs[0, 0] = o_t] and [xs[0, 0] = x_t], on arrays of shape
    [(batch_size, time_steps, _)]: the slot has to exist. *)
Definition store_first (batch_size time_steps : nat) : outcome unit :=
  if Nat.ltb 0 batch_size && Nat.ltb 0 time_steps
  then Done tt else Raised IndexError.

(** The loop of [compare_to_gym_batched]; the draws continue after the
    [total_us] ones taken before it. *)
Fixpoint compare_to_gym_batched_loop (total_us : nat) (tidxs : list nat)
    (env : env_t E) (x_t : ndarray T) (acc : totals T) : outcome (totals T) :=
  match tidxs with
  | [] => Done acc
  | tidx :: rest =>
      let u_t := sample (total_us + tidx) in
      let '(env', (env_obs_t1, env_loss_t)) := step E env u_t in
      let env_x_t1 := state E env' in
      k_res <- predict x_t (Arr2 (expand_dims_0 u_t)) ;;
      acc' <- account tidx env_x_t1 env_loss_t k_res acc ;;
      compare_to_gym_batched_loop total_us rest env'
        (Arr2 (expand_dims_0 env_x_t1)) acc'
  end.

(** [Pendulum.compare_to_gym_batched(batch_size, time_steps)] *)
Definition compare_to_gym_batched (batch_size time_steps : nat)
    (env : env_t E) : outcome (totals T) :=
  let '(env, o_t) := reset E env in
  let total_us := batch_size * time_steps in
  _ <- presample total_us ;;
  _ <- store_first batch_size time_steps ;;
  let '(env, obs_t) := reset E env in
  let x_t := Arr2 (expand_dims_0 (state E env)) in
  compare_to_gym_batched_loop total_us (seq 0 time_steps) env x_t no_totals.
End Harness.

(* ================================================================== *)
(** * Single precision as scalars *)
(* ================================================================== *)

(** The Keras graph computes in [float32]: numbers with a 24-bit
    mantissa and exponents up to 128, under round-to-nearest-even.
    Python's own constants are doubles, cast when they meet a tensor. *)
Module F32.

Definition prec : Z := 24.
Definition emax : Z := 128.

Definition zero : spec_float := S754_zero false.

(** The double nearest to an integer, and to a fraction. *)
Definition double_of_Z (z : Z) : spec_float := binary_normalize 53 1024 z 0 false.

Definition double_of_Q (q : Q) : spec_float :=
  SFdiv 53 1024 (double_of_Z (Qnum q)) (double_of_Z (Zpos (Qden q))).

(** [np.pi], the double 0x400921FB54442D18. *)
Definition np_pi : spec_float := S754_finite false 7074237752028440 (-51).

(** The cast of a double to [float32]. *)
Definition of_double (x : spec_float) : spec_float :=
  match x with
  | S754_finite s m e => binary_round prec emax s m e
  | _ => x
  end.

(** C's [fmod]: the remainder has the sign of [x] and is exact. *)
Definition fmod (x y : spec_float) : spec_float :=
  match x, y with
  | S754_nan, _ | _, S754_nan => S754_nan
  | S754_infinity _, _ => S754_nan
  | _, S754_zero _ => S754_nan
  | S754_zero _, _ => x
  | S754_finite _ _ _, S754_infinity _ => x
  | S754_finite sx mx ex, S754_finite sy my ey =>
      let ez := Z.min ex ey in
      let X := Zpos (fst (shl_align mx ex ez)) in
      let Y := Zpos (fst (shl_align my ey ez)) in
      binary_normalize prec emax (cond_Zopp sx (Z.rem X Y)) ez sx
  end.

(** The floor modulo as the TensorFlow kernel behind [KK.mod] computes
    it: [fmod(x, y)] when [x] and [y] have the same sign, and
    [fmod(fmod(x, y) + y, y)] when they differ. *)
Definition floormod (x y : spec_float) : spec_float :=
  let trunc_mod := fmod x y in
  if Bool.eqb (SFltb x zero) (SFltb y zero) then trunc_mod
  else fmod (SFadd prec emax trunc_mod y) y.

(** Neither an infinity nor a NaN, and a number [float32] has. *)
Definition is_finite (x : spec_float) : bool :=
  match x with
  | S754_zero _ => true
  | S754_finite _ m e => bounded prec emax m e
  | _ => false
  end.

(** [+0], a positive number or [+inf]. *)
Definition is_nonneg (x : spec_float) : bool :=
  match x with
  | S754_zero s | S754_infinity s | S754_finite s _ _ => negb s
  | S754_nan => false
  end.

(** Not a NaN, and of sign [s]. *)
Definition signed (s : bool) (x : spec_float) : Prop :=
  match x with
  | S754_zero s' | S754_infinity s' | S754_finite s' _ _ => s' = s
  | S754_nan => False
  end.

(** A number (no infinity, no NaN) of magnitude below [2^K]. *)
Definition below (K : Z) (x : spec_float) : Prop :=
  match x with
  | S754_zero _ => True
  | S754_finite _ m e => (Zdigits2 (Zpos m) + e <= K)%Z
  | _ => False
  end.

(** [np.pi] and [2 * np.pi] as [float32]. *)
Definition pi32 : spec_float := S754_finite false 13176795 (-22).
Definition two_pi32 : spec_float := S754_finite false 13176795 (-21).

(** The largest [float32]. *)
Definition max32 : spec_float := S754_finite false 16777215 104.

(** 2^100, a number [float32] has; its square is beyond the largest. *)
Definition two_pow_100 : spec_float := S754_finite false 8388608 77.

(** 2^60, a number [float32] has; its square is not beyond the largest. *)
Definition two_pow_60 : spec_float := S754_finite false 8388608 37.

(** The real number a [float32] number stands for. *)
Definition to_R (x : spec_float) : R :=
  match x with
  | S754_finite s m e => (IZR (cond_Zopp s (Zpos m)) * powerRZ 2 e)%R
  | _ => 0%R
  end.

(** The same number counted in units of [2^-149], the smallest positive
    [float32]: an integer. *)
Definition ulps (x : spec_float) : Z :=
  match x with
  | S754_finite s m e => cond_Zopp s (Zpos m * 2 ^ (e + 149))%Z
  | _ => 0%Z
  end.

(** What a floor modulo by [2 pi] can be: a zero, or a positive [float32]
    number that is a unit in the last place of [2 pi] under [2 pi] at
    least. *)
Definition in_turn (r : spec_float) : Prop :=
  (exists s, r = S754_zero s)
  \/ (exists m e, r = S754_finite false m e
        /\ bounded prec emax m e = true
        /\ (Zpos m * 2 ^ (e + 149) <= 13176794 * 2 ^ 128)%Z).

End F32.

#[export] Instance F32_Arith : Arith spec_float := {|
  lit := fun q => F32.of_double (F32.double_of_Q q);
  lit_pi := fun q => F32.of_double (SFmul 53 1024 (F32.double_of_Q q) F32.np_pi);
  tadd := SFadd F32.prec F32.emax;
  tsub := SFsub F32.prec F32.emax;
  tmul := SFmul F32.prec F32.emax;
  tdiv := SFdiv F32.prec F32.emax;
  tsquare := fun x => SFmul F32.prec F32.emax x x;
  tmod := F32.floormod
|}.

(* ================================================================== *)
(** * Sums over the printed differences *)
(* ================================================================== *)

Section Sums.
Context {T : Type} `{Arith T} `{Cmp T}.

(** Every step's squared error added up, in the order of the steps. *)
Definition sum_of_all (ds : list T) : T := fold_left tadd ds (lit 0).

(** The squared errors that reach [float32_eps] added up, in the order
    of the steps; the others are passed over. *)
Definition sum_of_flagged (ds : list T) : T :=
  fold_left (fun total d => if tgeb d (lit float32_eps) then tadd total d else total)
    ds (lit 0).

(** The state differences, and the loss differences, that a run printed,
    first step first. *)
Definition state_diffs (r : totals T) : list T := map fst (rev (diffs r)).
Definition loss_diffs (r : totals T) : list T := map snd (rev (diffs r)).

(** The totals of [r] are the flagged sums of what [r] has printed. *)
Definition flagged_totals (r : totals T) : Prop :=
  total_state_diff r = sum_of_flagged (state_diffs r)
  /\ total_loss_diff r = sum_of_flagged (loss_diffs r).
End Sums.

(* ================================================================== *)
(** * Environments to run the harness on *)
(* ================================================================== *)

(** A simulator with the state variables [(th, thdot)]: it is in the
    state [s0] after every [reset] and in the state [s1] after every
    [step], and pays the reward [r]. *)
Definition two_state_env {T} (s0 s1 : T * T) (r : T) : Env T :=
  {| env_t := T * T;
     reset := fun _ => (s0, [fst s0; snd s0]);
     state := fun e => [fst e; snd e];
     step := fun _ _ => (s1, ([fst s1; snd s1], r)) |}.

(** The simulator starts at angle 0, at rest; after a step its angle is
    one ten-thousandth, whatever the torque was. *)
Definition slightly_off_env : Env R :=
  two_state_env (0%R, 0%R) ((1 / 10000)%R, 0%R) 0%R.

(** A simulator that rests at angle 0 and is found at angle 1 after its
    [k]-th step, and only then; it pays no reward. *)
Definition kicked_env (k : nat) : Env R :=
  {| env_t := nat;
     reset := fun _ => (0%nat, [0%R; 0%R]);
     state := fun n => if Nat.eqb n k then [1%R; 0%R] else [0%R; 0%R];
     step := fun n _ =>
       (S n, ((if Nat.eqb (S n) k then [1%R; 0%R] else [0%R; 0%R]), 0%R)) |}.

(** Every draw of the action space is the torque [u]. *)
Definition constant_sample {T} (u : T) : nat -> list T := fun _ => [u].

(* ================================================================== *)
(** * Construction, and the entry point [test] *)
(* ================================================================== *)

Section Construction.
Context {T : Type} `{Arith T} `{Trig T} `{Cmp T}.

(** The sample batch of [Pendulum.__init__]. *)
Definition x_data : matrix T := [[lit 1; lit 1]; [lit 2; lit 2]].
Definition u_data : matrix T := [[lit 1]; [lit 2]].

(** [Pendulum.__init__] from its second line on: the model is built and
    run once on the sample batch; the result is what the constructor
    prints. *)
Definition Pendulum_init : outcome (matrix T * matrix T) :=
  predict (Arr2 x_data) (Arr2 u_data).

(** The whole of [Pendulum.__init__].  Its first line calls the
    initialiser of the base class [Dynamics], a class of the repository
    that the source file only imports; what that call does, return or
    raise, is the parameter [Dynamics_init]. *)
Definition Pendulum_new (Dynamics_init : outcome unit)
    : outcome (matrix T * matrix T) :=
  _ <- Dynamics_init ;; Pendulum_init.

(** The default of [time_steps]. *)
Definition default_time_steps : nat := 1000.

(** [test()]: a pendulum is constructed and compared in batches of 1 and
    of 2.  Each comparison makes an environment of its own ([gym.make]),
    with an action space of its own. *)
Definition test (Dynamics_init : outcome unit) (E : Env T)
    (sample1 sample2 : nat -> list T)
    (env1 env2 : env_t E) : outcome (totals T * totals T) :=
  _ <- Pendulum_new Dynamics_init ;;
  r1 <- compare_to_gym_batched E sample1 1 default_time_steps env1 ;;
  r2 <- compare_to_gym_batched E sample2 2 default_time_steps env2 ;;
  Done (r1, r2).

(** The flags of [r] are the steps whose printed difference reached
    [float32_eps]. *)
Definition flags_match (r : totals T) : Prop :=
  forall t : nat,
    (In (FlagState t) (flags r) <->
       exists d, nth_error (state_diffs r) t = Some d
                 /\ tgeb d (lit float32_eps) = true)
    /\ (In (FlagLoss t) (flags r) <->
       exists d, nth_error (loss_diffs r) t = Some d
                 /\ tgeb d (lit float32_eps) = true).
End Construction.

(** A simulator that agrees with the model: a step takes the state where
    [pendulum_dynamics] takes it, and pays the negated [pendulum_cost]. *)
Definition agreeing_env : Env R :=
  {| env_t := R * R;
     reset := fun e => (e, [fst e; snd e]);
     state := fun e => [fst e; snd e];
     step := fun e u =>
       match pendulum_dynamics [[fst e; snd e] ++ u],
             pendulum_cost [[fst e; snd e] ++ u] with
       | Some [[th'; thdot']], Some [[cost]] =>
           ((th', thdot'), ([th'; thdot'], (0 - cost)%R))
       | _, _ => (e, ([fst e; snd e], 0%R))
       end |}.

(** The next angular velocity over the reals, with the constants
    multiplied out. *)
Definition next_thdot (th thdot u : R) : R :=
  (thdot + 0.75 * sin th + 0.15 * u)%R.

(* ================================================================== *)
(** * Reading the code over the real numbers *)
(* ================================================================== *)

Unset Implicit Arguments.
Local Open Scope R_scope.

Ltac unfold_scalars :=
  cbv [lit lit_pi tadd tsub tmul tdiv tsquare tmod tsin tcos tleb teqb tgeb
       R_Arith R_Trig R_Cmp] in *.

Lemma Q2R_frac (n : Z) (d : positive) : Q2R (n # d) = IZR n / IZR (Zpos d).
Proof. reflexivity. Qed.

(** Every closed literal [Q2R q] of the goal becomes a fraction of
    integers. *)
Ltac eval_lits :=
  repeat match goal with
  | |- context [Q2R ?q] =>
      let q' := eval vm_compute in q in
      match q' with
      | (?n # ?d)%Q => change (Q2R q) with (Q2R (n # d)); rewrite (Q2R_frac n d)
      end
  end.

Lemma Rfloormod_small (x y : R) :
  0 <= x < y -> Rfloormod x y = x.
Proof.
  intros [Hx Hxy]. unfold Rfloormod.
  assert (Hy : 0 < y) by lra.
  rewrite (Zfloor_eq 0 (x / y)).
  - lra.
  - split.
    + apply Rmult_le_reg_r with y; [lra|]. unfold Rdiv. rewrite Rmult_assoc, Rinv_l; lra.
    + apply Rmult_lt_reg_r with y; [lra|]. unfold Rdiv. rewrite Rmult_assoc, Rinv_l; lra.
Qed.

Lemma normalized_th_R (th : R) :
  normalized_th th = Rfloormod (th + PI) (2 * PI) - PI.
Proof.
  unfold normalized_th. unfold_scalars. eval_lits.
  replace (1 / 1 * PI) with PI by lra.
  replace (2 / 1 * PI) with (2 * PI) by lra.
  reflexivity.
Qed.

(** C1: for every state (th, thdot) and control u, the dynamics returns
    the pair (th', thdot') with
    thdot' = thdot + (-(3g)/(2l) sin(th + pi) + 3/(m l^2) u) dt and
    th' = th + thdot' dt, for g = 10, l = 1, m = 1, dt = 0.05. *)
Theorem dynamics_formula (th thdot u : R) :
  pendulum_dynamics [[th; thdot; u]] =
  let thdot' :=
    thdot + (- (3 * 10) / (2 * 1) * sin (th + PI) + 3 / (1 * 1 ^ 2) * u) * 0.05 in
  Some [[th + thdot' * 0.05; thdot']].
Proof.
  cbv [pendulum_dynamics cols_to cols_from item nth_error map firstn skipn
       broadcast concatenate app].
  unfold_scalars. cbv zeta. eval_lits.
  replace (th + 1 / 1 * PI) with (th + PI) by lra.
  do 3 f_equal; [lra | f_equal; lra].
Qed.

(** C2: for every state (th, thdot) and control u, the cost is
    normalized^2 + 0.1 thdot^2 + 0.001 u^2, where
    normalized = ((th + pi) mod 2 pi) - pi. *)
Theorem cost_formula (th thdot u : R) :
  pendulum_cost [[th; thdot; u]] =
  let normalized := Rfloormod (th + PI) (2 * PI) - PI in
  Some [[normalized ^ 2 + 0.1 * thdot ^ 2 + 0.001 * u ^ 2]].
Proof.
  cbv [pendulum_cost cols_to cols_from item nth_error map firstn skipn broadcast].
  rewrite normalized_th_R.
  unfold_scalars. cbv zeta. eval_lits.
  do 3 f_equal. lra.
Qed.

(** ** The goal checker *)

Lemma eps_pos : 0 < Q2R float32_eps.
Proof. unfold float32_eps. rewrite Q2R_frac. lra. Qed.

Lemma eps_small : Q2R float32_eps < 1.
Proof. unfold float32_eps. rewrite Q2R_frac. lra. Qed.

Lemma tleb_R (a b : R) : tleb a b = true <-> a <= b.
Proof.
  cbn. destruct (Rle_dec a b); split; intros; try easy.
Qed.

Lemma teqb_R (a b : R) : teqb a b = true <-> a = b.
Proof.
  cbn. destruct (Req_dec_T a b); split; intros; try easy.
Qed.

(** The value of the [return] expression on a state whose first row
    starts with [th] and [thdot]. *)
Lemma checker_answer (th thdot : R) (more : list R) (rows : matrix R) :
  answer (pendulum_goal_checker ((th :: thdot :: more) :: rows)) =
  Some (tleb (1 - cos th) (Q2R float32_eps) && teqb thdot 0).
Proof.
  unfold pendulum_goal_checker. cbn [answer item nth_error].
  replace (tsub (lit 1) (tcos th)) with (1 - cos th).
  2:{ unfold_scalars. eval_lits. lra. }
  replace (@lit R _ 0) with 0.
  2:{ unfold_scalars. eval_lits. lra. }
  change (@lit R _ float32_eps) with (Q2R float32_eps).
  destruct (tleb (1 - cos th) (Q2R float32_eps)); reflexivity.
Qed.

(** On a state with one row [(th, thdot)] the checker answers, and never
    stops in the debugger. *)
Lemma checker_one_row (th thdot : R) :
  pendulum_goal_checker [[th; thdot]] =
  {| entered_debugger := false;
     answer := Some (tleb (1 - cos th) (Q2R float32_eps) && teqb thdot 0) |}.
Proof.
  rewrite <- checker_answer with (more := []) (rows := []). reflexivity.
Qed.

(** C7: the checker returns true exactly when 1 - cos th <= eps (single
    precision) and thdot = 0; it returns true on (0, 0) and (2 pi, 0) and
    false on (pi, 0). *)
Theorem checker_spec :
  (forall (th thdot : R) (more : list R) (rows : matrix R),
      exists b : bool,
        answer (pendulum_goal_checker ((th :: thdot :: more) :: rows)) = Some b
        /\ (b = true <-> 1 - cos th <= Q2R float32_eps /\ thdot = 0))
  /\ pendulum_goal_checker [[0; 0]] =
       {| entered_debugger := false; answer := Some true |}
  /\ pendulum_goal_checker [[2 * PI; 0]] =
       {| entered_debugger := false; answer := Some true |}
  /\ pendulum_goal_checker [[PI; 0]] =
       {| entered_debugger := false; answer := Some false |}.
Proof.
  assert (Hspec : forall th thdot : R,
      (tleb (1 - cos th) (Q2R float32_eps) && teqb thdot 0 = true)
      <-> 1 - cos th <= Q2R float32_eps /\ thdot = 0).
  { intros. rewrite andb_true_iff, tleb_R, teqb_R. reflexivity. }
  pose proof eps_pos as Hpos. pose proof eps_small as Hsmall.
  repeat split.
  - intros th thdot more rows. eexists. split; [apply checker_answer | apply Hspec].
  - rewrite checker_one_row. do 2 f_equal. apply Hspec.
    rewrite cos_0. split; lra.
  - rewrite checker_one_row. do 2 f_equal. apply Hspec.
    rewrite cos_2PI. split; lra.
  - rewrite checker_one_row. do 2 f_equal.
    apply not_true_is_false. rewrite Hspec, cos_PI. lra.
Qed.

(** C6, as stated, fails on the state (0, 0): it has fewer than two rows,
    and the checker answers [True] on it without stopping anywhere. *)
Theorem checker_one_row_not_rejected :
  (length [[0; 0]] < 2)%nat
  /\ pendulum_goal_checker [[0; 0]] =
       {| entered_debugger := false; answer := Some true |}.
Proof.
  split; [cbn; lia|].
  rewrite checker_one_row. do 2 f_equal.
  apply andb_true_iff. rewrite tleb_R, teqb_R, cos_0.
  pose proof eps_pos. split; lra.
Qed.

(** C6, amended: the checker stops in the debugger exactly on an input
    of two rows; on a one-row state it returns a boolean without stopping,
    and on an input of no rows its [return] expression raises. *)
Theorem checker_debugger_rows :
  (forall x : matrix R,
      entered_debugger (pendulum_goal_checker x) = true <-> length x = 2%nat)
  /\ (forall th thdot : R, exists b : bool,
        pendulum_goal_checker [[th; thdot]] =
          {| entered_debugger := false; answer := Some b |})
  /\ pendulum_goal_checker (@nil (list R)) =
       {| entered_debugger := false; answer := None |}.
Proof.
  repeat split.
  - cbn [pendulum_goal_checker entered_debugger]. apply Nat.eqb_eq.
  - cbn [pendulum_goal_checker entered_debugger]. apply Nat.eqb_eq.
  - intros. eexists. apply checker_one_row.
Qed.

Lemma cos_2nPI (n : nat) : cos (2 * INR n * PI) = 1.
Proof.
  rewrite <- (Rplus_0_l (2 * INR n * PI)), cos_period. apply cos_0.
Qed.

Lemma cos_2kPI (k : Z) : cos (2 * IZR k * PI) = 1.
Proof.
  destruct k as [|p|p].
  - replace (2 * 0 * PI) with 0 by lra. apply cos_0.
  - rewrite <- (positive_nat_Z p), <- INR_IZR_INZ. apply cos_2nPI.
  - replace (2 * IZR (Z.neg p) * PI) with (- (2 * IZR (Z.pos p) * PI)).
    2:{ change (Z.neg p) with (- Z.pos p)%Z. rewrite opp_IZR. lra. }
    rewrite cos_neg, <- (positive_nat_Z p), <- INR_IZR_INZ. apply cos_2nPI.
Qed.

(** C10: every state the goal generator can produce, [[2 pi k, 0]] for a
    draw k of randint(-3, 4), is accepted by the checker, which does not
    stop in the debugger on it. *)
Theorem generated_goal_accepted (k : Z) :
  randint (-3) 4 k ->
  pendulum_goal_checker (pendulum_goal_generator k) =
    {| entered_debugger := false; answer := Some true |}.
Proof.
  intros _. unfold pendulum_goal_generator.
  replace (@lit R _ 0) with 0 by (unfold_scalars; eval_lits; lra).
  rewrite checker_one_row. do 2 f_equal.
  apply andb_true_iff. rewrite tleb_R, teqb_R.
  replace (lit_pi (2 * inject_Z k)) with (2 * IZR k * PI).
  2:{ unfold_scalars. rewrite Q2R_mult. unfold inject_Z. rewrite !Q2R_frac. lra. }
  rewrite cos_2kPI. pose proof eps_pos. split; lra.
Qed.

Lemma generated_goal_accepted_witness :
  randint (-3) 4 3
  /\ pendulum_goal_checker (pendulum_goal_generator (T := R) 3) =
       {| entered_debugger := false; answer := Some true |}.
Proof.
  assert (Hk : randint (-3) 4 3) by (unfold randint; lia).
  split; [exact Hk | exact (generated_goal_accepted 3 Hk)].
Defined.

(** ** Which rows the model reads *)

Section FirstRow.
Context {T : Type} `{Arith T} `{Trig T}.

Lemma item_cols_to (j : nat) (x : matrix T) :
  item 0 j (cols_to 2 x) = nth_error (firstn 2 (hd [] x)) j.
Proof.
  destruct x as [|row rows]; cbn.
  - destruct j; reflexivity.
  - reflexivity.
Qed.

(** C9: two batches that agree on the state columns of their first row
    and on their control columns get the same output of the dynamics and
    of the cost, whatever states their other rows hold. *)
Theorem first_row_only (a b : matrix T) :
  firstn 2 (hd [] a) = firstn 2 (hd [] b) ->
  cols_from 2 a = cols_from 2 b ->
  pendulum_dynamics a = pendulum_dynamics b
  /\ pendulum_cost a = pendulum_cost b.
Proof.
  intros Hstate Hcontrol.
  unfold pendulum_dynamics, pendulum_cost.
  rewrite !item_cols_to, Hstate, Hcontrol.
  split; reflexivity.
Qed.
End FirstRow.

Lemma first_row_only_witness :
  let a := [[0; 0; 1]; [5; 6; 2]] in
  let b := [[0; 0; 1]; [7; 8; 2]] in
  a <> b
  /\ pendulum_dynamics a = pendulum_dynamics b
  /\ pendulum_cost a = pendulum_cost b.
Proof.
  cbv zeta. split.
  - intros Heq. injection Heq as Heq. lra.
  - apply (first_row_only [[0; 0; 1]; [5; 6; 2]] [[0; 0; 1]; [7; 8; 2]]);
      reflexivity.
Defined.

(* ================================================================== *)
(** * Reading the cost in single precision *)
(* ================================================================== *)

Section SinglePrecision.
Local Open Scope Z_scope.

(** *** Rounding keeps the sign, and makes no NaN *)

Lemma shr_1_nonneg mrs : 0 <= shr_m mrs -> 0 <= shr_m (shr_1 mrs).
Proof.
  destruct mrs as [m r s]. cbn [shr_m].
  destruct m as [|[p|p|]|[p|p|]]; cbn; lia.
Qed.

Lemma iter_pos_shr_1_nonneg n :
  forall mrs, 0 <= shr_m mrs -> 0 <= shr_m (iter_pos shr_1 n mrs).
Proof.
  induction n as [n IH|n IH|]; intros mrs Hm; cbn [iter_pos].
  - apply IH, IH, shr_1_nonneg, Hm.
  - apply IH, IH, Hm.
  - apply shr_1_nonneg, Hm.
Qed.

Lemma shr_nonneg mrs e n : 0 <= shr_m mrs -> 0 <= shr_m (fst (shr mrs e n)).
Proof.
  intros Hm. unfold shr. destruct n; cbn [fst]; auto using iter_pos_shr_1_nonneg.
Qed.

Lemma shr_record_of_loc_m m l : shr_m (shr_record_of_loc m l) = m.
Proof. destruct l as [|[]]; reflexivity. Qed.

Lemma shr_fexp_nonneg prec emax m e l :
  0 <= m -> 0 <= shr_m (fst (shr_fexp prec emax m e l)).
Proof.
  intros Hm. unfold shr_fexp. apply shr_nonneg. rewrite shr_record_of_loc_m. exact Hm.
Qed.

Lemma round_nearest_even_nonneg m l : 0 <= m -> 0 <= round_nearest_even m l.
Proof.
  intros Hm. unfold round_nearest_even.
  destruct l as [|[]]; try lia. destruct (Z.even m); lia.
Qed.

Lemma binary_round_aux_signed prec emax s m e l :
  0 <= m -> F32.signed s (binary_round_aux prec emax s m e l).
Proof.
  intros Hm. unfold binary_round_aux.
  pose proof (shr_fexp_nonneg prec emax m e l Hm) as H1.
  destruct (shr_fexp prec emax m e l) as [mrs' e'].
  cbn [fst] in H1.
  pose proof (shr_fexp_nonneg prec emax _ e' loc_Exact
                (round_nearest_even_nonneg _ (loc_of_shr_record mrs') H1)) as H2.
  destruct (shr_fexp prec emax _ e' loc_Exact) as [mrs'' e''].
  cbn [fst] in H2.
  destruct (shr_m mrs'') as [|p|p]; cbn.
  - reflexivity.
  - destruct (e'' <=? emax - prec); reflexivity.
  - lia.
Qed.

Lemma binary_round_signed prec emax s m e :
  F32.signed s (binary_round prec emax s m e).
Proof.
  unfold binary_round.
  destruct (shl_align m e _) as [mz ez].
  apply binary_round_aux_signed. lia.
Qed.

Lemma binary_normalize_not_nan prec emax m e sz :
  binary_normalize prec emax m e sz <> S754_nan.
Proof.
  destruct m as [|p|p]; cbn [binary_normalize].
  - discriminate.
  - pose proof (binary_round_signed prec emax false p e) as Hs.
    intros Heq. rewrite Heq in Hs. exact Hs.
  - pose proof (binary_round_signed prec emax true p e) as Hs.
    intros Heq. rewrite Heq in Hs. exact Hs.
Qed.

(** *** The cost is a sum of squares *)

Lemma square_signed x :
  x <> S754_nan -> F32.signed false (SFmul F32.prec F32.emax x x).
Proof.
  intros Hx. destruct x as [s|s| |s m e]; cbn [SFmul F32.signed].
  - apply xorb_nilpotent.
  - apply xorb_nilpotent.
  - contradiction.
  - rewrite xorb_nilpotent. apply binary_round_aux_signed. lia.
Qed.

Lemma mul_positive_signed mc ec y :
  F32.signed false y ->
  F32.signed false (SFmul F32.prec F32.emax (S754_finite false mc ec) y).
Proof.
  destruct y as [s|s| |s m e]; cbn [SFmul F32.signed]; intros Hy; subst; try reflexivity.
  - contradiction.
  - apply (binary_round_aux_signed F32.prec F32.emax (xorb false false)). lia.
Qed.

Lemma add_signed a b :
  F32.signed false a -> F32.signed false b ->
  F32.signed false (SFadd F32.prec F32.emax a b).
Proof.
  destruct a as [sa|sa| |sa ma ea], b as [sb|sb| |sb mb eb];
    cbn [F32.signed]; intros Ha Hb; subst; try contradiction; try reflexivity.
  cbn [SFadd cond_Zopp].
  destruct (shl_align ma ea (Z.min ea eb)) as [ma' ea'].
  destruct (shl_align mb eb (Z.min ea eb)) as [mb' eb'].
  cbn [fst Z.add binary_normalize].
  apply binary_round_signed.
Qed.

Lemma cost_signed (n thdot u : spec_float) :
  n <> S754_nan -> thdot <> S754_nan -> u <> S754_nan ->
  F32.signed false
    (tadd (tadd (tsquare n) (tmul (lit (1 # 10)) (tsquare thdot)))
          (tmul (lit (1 # 1000)) (tsquare u))).
Proof.
  intros Hn Hd Hu.
  change (@lit spec_float _ (1 # 10)) with (S754_finite false 13421773 (-27)).
  change (@lit spec_float _ (1 # 1000)) with (S754_finite false 8589935 (-33)).
  cbn [tadd tmul tsquare F32_Arith].
  apply add_signed; [apply add_signed|].
  - apply square_signed, Hn.
  - apply mul_positive_signed, square_signed, Hd.
  - apply mul_positive_signed, square_signed, Hu.
Qed.

(** *** The number of binary digits *)

Lemma digits2_pos_size p : digits2_pos p = Pos.size p.
Proof. induction p; cbn; congruence. Qed.

Lemma Zdigits2_log2 p : Zdigits2 (Zpos p) = Z.succ (Z.log2 (Zpos p)).
Proof.
  cbn [Zdigits2]. rewrite digits2_pos_size.
  destruct p; cbn [Z.log2 Pos.size]; lia.
Qed.

Lemma Zdigits2_nonneg z : 0 <= Zdigits2 z.
Proof. destruct z; cbn; lia. Qed.

(** A positive number with [k] digits at most is F32.below [2^k], and back. *)
Lemma Zdigits2_le z k : 0 <= z < 2 ^ k -> 0 <= k -> Zdigits2 z <= k.
Proof.
  intros [Hz Hlt] Hk. destruct z as [|p|p]; [exact Hk| |lia].
  rewrite Zdigits2_log2.
  assert (Z.log2 (Zpos p) < k) by (apply Z.log2_lt_pow2; lia).
  lia.
Qed.

Lemma Zdigits2_lt_pow2 z : 0 <= z -> z < 2 ^ Zdigits2 z.
Proof.
  intros Hz. destruct z as [|p|p]; [reflexivity| |lia].
  rewrite Zdigits2_log2.
  apply (Z.log2_spec (Zpos p)). lia.
Qed.

Lemma Zdigits2_ge_pow2 p : 2 ^ (Zdigits2 (Zpos p) - 1) <= Zpos p.
Proof.
  rewrite Zdigits2_log2.
  replace (Z.succ (Z.log2 (Zpos p)) - 1) with (Z.log2 (Zpos p)) by lia.
  apply (Z.log2_spec (Zpos p)). lia.
Qed.

Lemma Zdigits2_mono a b : 0 <= a <= b -> Zdigits2 a <= Zdigits2 b.
Proof.
  intros [Ha Hab]. apply Zdigits2_le; [|apply Zdigits2_nonneg].
  split; [exact Ha|].
  apply Z.le_lt_trans with b; [exact Hab | apply Zdigits2_lt_pow2; lia].
Qed.

(** *** Shifting to the right *)

Lemma shr_1_m mrs : 0 <= shr_m mrs -> shr_m (shr_1 mrs) = shr_m mrs / 2.
Proof.
  destruct mrs as [m r s]. cbn [shr_m]. intros Hm.
  destruct m as [|[p|p|]|p]; try lia; unfold shr_1; cbn [shr_m].
  - reflexivity.
  - apply Z.div_unique with 1; lia.
  - apply Z.div_unique with 0; lia.
  - reflexivity.
Qed.

Lemma iter_pos_shr_1_m n :
  forall mrs, 0 <= shr_m mrs ->
    shr_m (iter_pos shr_1 n mrs) = shr_m mrs / 2 ^ Zpos n.
Proof.
  induction n as [n IH|n IH|]; intros mrs Hm; cbn [iter_pos].
  - rewrite IH, IH, shr_1_m by auto using iter_pos_shr_1_nonneg, shr_1_nonneg.
    rewrite !Z.div_div by lia. f_equal.
    rewrite Pos2Z.inj_xI, Z.pow_add_r, Z.pow_mul_r by lia.
    change (2 ^ 2) with 4. change (2 ^ 1) with 2.
    replace (4 ^ Zpos n) with (2 ^ Zpos n * 2 ^ Zpos n).
    + ring.
    + rewrite <- Z.pow_add_r by lia. replace (Zpos n + Zpos n) with (2 * Zpos n) by lia.
      rewrite Z.pow_mul_r by lia. reflexivity.
  - rewrite IH, IH by auto using iter_pos_shr_1_nonneg.
    rewrite !Z.div_div by lia. f_equal.
    rewrite Pos2Z.inj_xO. rewrite <- Z.pow_add_r by lia. f_equal. lia.
  - rewrite shr_1_m by exact Hm. reflexivity.
Qed.

(** What [shr_fexp] returns on a mantissa that is not negative: the
    exponent [fexp] asks for, when it is above [e], and the mantissa
    without the digits F32.below it. *)
Lemma shr_fexp_exact prec emax z e l :
  0 <= z ->
  let e1 := Z.max e (fexp prec emax (Zdigits2 z + e)) in
  snd (shr_fexp prec emax z e l) = e1
  /\ shr_m (fst (shr_fexp prec emax z e l)) = z / 2 ^ (e1 - e).
Proof.
  intros Hz e1. unfold shr_fexp, shr. subst e1.
  destruct (fexp prec emax (Zdigits2 z + e) - e) as [|n|n] eqn:Hn; cbn [fst snd].
  - replace (Z.max e _) with e by lia.
    rewrite Z.sub_diag, Z.div_1_r. split; [reflexivity | apply shr_record_of_loc_m].
  - replace (Z.max e _) with (e + Zpos n) by lia.
    split; [reflexivity|].
    rewrite iter_pos_shr_1_m by (rewrite shr_record_of_loc_m; exact Hz).
    rewrite shr_record_of_loc_m. f_equal. f_equal. lia.
  - replace (Z.max e _) with e by lia.
    rewrite Z.sub_diag, Z.div_1_r. split; [reflexivity | apply shr_record_of_loc_m].
Qed.

Lemma round_nearest_even_bounds m l :
  m <= round_nearest_even m l <= m + 1.
Proof.
  unfold round_nearest_even. destruct l as [|[]]; try lia.
  destruct (Z.even m); lia.
Qed.



(** *** Rounding without overflow *)

Lemma fexp32_eq x : (fexp F32.prec F32.emax) x = Z.max (x - 24) (-149).
Proof. reflexivity. Qed.

Lemma Zdigits2_div_pow2 a k :
  0 <= a -> 0 <= k -> 0 < a / 2 ^ k ->
  Zdigits2 (a / 2 ^ k) <= Zdigits2 a - k.
Proof.
  intros Ha Hk Hq.
  pose proof (Zdigits2_lt_pow2 a Ha) as Hlt.
  pose proof (Zdigits2_nonneg a) as Hd.
  assert (Hpow : 0 < 2 ^ k) by (apply Z.pow_pos_nonneg; lia).
  destruct (Z_lt_le_dec (Zdigits2 a) k) as [Hsmall|Hbig].
  - assert (a / 2 ^ k = 0); [|lia].
    apply Z.div_small. split; [exact Ha|].
    apply Z.lt_le_trans with (2 ^ Zdigits2 a); [exact Hlt|].
    apply Z.pow_le_mono_r; lia.
  - apply Zdigits2_le; [|lia]. split; [lia|].
    apply Z.div_lt_upper_bound; [exact Hpow|].
    rewrite <- Z.pow_add_r by lia.
    replace (k + (Zdigits2 a - k)) with (Zdigits2 a) by lia. exact Hlt.
Qed.

Lemma binary_round_aux_below s z e M :
  0 <= z ->
  let e1 := Z.max e ((fexp F32.prec F32.emax) (Zdigits2 z + e)) in
  e1 <= 104 ->
  Zdigits2 (z / 2 ^ (e1 - e) + 1) + e1 <= M -> M <= 128 ->
  F32.below M (binary_round_aux F32.prec F32.emax s z e loc_Exact).
Proof.
  intros Hz e1 He1 Hmag HM.
  unfold binary_round_aux.
  destruct (shr_fexp_exact F32.prec F32.emax z e loc_Exact Hz) as [Hexp Hman].
  fold e1 in Hexp, Hman.
  destruct (shr_fexp F32.prec F32.emax z e loc_Exact) as [mrs' e'].
  cbn [fst snd] in Hexp, Hman. subst e'.
  set (m1 := z / 2 ^ (e1 - e)) in *.
  assert (Hm1 : 0 <= m1).
  { apply Z.div_pos; [exact Hz | apply Z.pow_pos_nonneg; lia]. }
  pose proof (round_nearest_even_bounds (shr_m mrs') (loc_of_shr_record mrs')) as Hrnd.
  set (m2 := round_nearest_even (shr_m mrs') (loc_of_shr_record mrs')) in *.
  rewrite Hman in Hrnd.
  assert (Hm2 : 0 <= m2) by lia.
  assert (Hd2 : Zdigits2 m2 <= Zdigits2 (m1 + 1)) by (apply Zdigits2_mono; lia).
  destruct (shr_fexp_exact F32.prec F32.emax m2 e1 loc_Exact Hm2) as [Hexp2 Hman2].
  destruct (shr_fexp F32.prec F32.emax m2 e1 loc_Exact) as [mrs'' e''].
  cbn [fst snd] in Hexp2, Hman2.
  set (e2 := Z.max e1 ((fexp F32.prec F32.emax) (Zdigits2 m2 + e1))) in *.
  assert (He2 : e1 <= e2 <= 104).
  { subst e2. rewrite fexp32_eq. lia. }
  destruct (shr_m mrs'') as [|m|m] eqn:Hm.
  - exact I.
  - subst e''.
    replace (e2 <=? F32.emax - F32.prec) with true
      by (symmetry; apply Z.leb_le; change (F32.emax - F32.prec) with 104; lia).
    cbn [F32.below].
    assert (Hq : 0 < m2 / 2 ^ (e2 - e1)) by lia.
    pose proof (Zdigits2_div_pow2 m2 (e2 - e1) Hm2 ltac:(lia) Hq) as Hdiv.
    rewrite <- Hman2 in Hdiv. lia.
  - pose proof (shr_fexp_nonneg F32.prec F32.emax m2 e1 loc_Exact Hm2) as Hneg.
    assert (shr_m (fst (shr_fexp F32.prec F32.emax m2 e1 loc_Exact)) = Z.neg m); [|lia].
    rewrite Hman2. subst e2.
    assert (0 <= m2 / 2 ^ (Z.max e1 ((fexp F32.prec F32.emax) (Zdigits2 m2 + e1)) - e1)); [|lia].
    apply Z.div_pos; [exact Hm2 | apply Z.pow_pos_nonneg; lia].
Qed.

Lemma iter_xO m d : Zpos (Pos.iter xO m d) = Zpos m * 2 ^ Zpos d.
Proof.
  induction d as [|d IH] using Pos.peano_ind.
  - cbn [Pos.iter]. lia.
  - rewrite Pos.iter_succ, Pos2Z.inj_xO, IH, Pos2Z.inj_succ, Z.pow_succ_r by lia.
    ring.
Qed.

(** [shl_align] lowers the exponent to [e'] when [e'] is F32.below [e]. *)
Lemma shl_align_spec m e e' :
  snd (shl_align m e e') = Z.min e e'
  /\ Zpos (fst (shl_align m e e')) = Zpos m * 2 ^ (e - Z.min e e').
Proof.
  unfold shl_align.
  destruct (e' - e) as [|d|d] eqn:Hd; cbn [fst snd].
  - replace (Z.min e e') with e by lia. rewrite Z.sub_diag. lia.
  - replace (Z.min e e') with e by lia. rewrite Z.sub_diag. lia.
  - replace (Z.min e e') with e' by lia.
    replace (e - e') with (Zpos d) by lia.
    split; [reflexivity | apply iter_xO].
Qed.

Lemma Zdigits2_pos z : 0 < z -> Zdigits2 z = Z.succ (Z.log2 z).
Proof. destruct z; try lia. intros _. apply Zdigits2_log2. Qed.

Lemma Zdigits2_mul_pow2 a k :
  0 < a -> 0 <= k -> Zdigits2 (a * 2 ^ k) = Zdigits2 a + k.
Proof.
  intros Ha Hk.
  assert (0 < 2 ^ k) by (apply Z.pow_pos_nonneg; lia).
  rewrite !Zdigits2_pos by nia.
  rewrite Z.log2_mul_pow2 by lia. lia.
Qed.

Lemma Zdigits2_eq z k : 2 ^ (k - 1) <= z < 2 ^ k -> 0 < k -> Zdigits2 z = k.
Proof.
  intros [Hlo Hhi] Hk.
  assert (0 < 2 ^ (k - 1)) by (apply Z.pow_pos_nonneg; lia).
  rewrite Zdigits2_pos by lia.
  assert (Z.log2 z = k - 1); [|lia].
  apply Z.log2_unique; [lia|]. replace (Z.succ (k - 1)) with k by lia. lia.
Qed.

(** The rounding of [m * 2^e]: [e1] is the exponent of the result before
    the last normalisation, [q] its mantissa before rounding. *)
Lemma binary_round_below s m e M :
  let e1 := (fexp F32.prec F32.emax) (Zdigits2 (Zpos m) + e) in
  let ez := Z.min e e1 in
  e1 <= 104 ->
  Zdigits2 (Zpos m * 2 ^ (e - ez) / 2 ^ (e1 - ez) + 1) + e1 <= M -> M <= 128 ->
  F32.below M (binary_round F32.prec F32.emax s m e).
Proof.
  intros e1 ez He1 Hmag HM.
  unfold binary_round.
  change (fexp F32.prec F32.emax (Z.pos (digits2_pos m) + e)) with e1.
  destruct (shl_align_spec m e e1) as [Hexp Hman]. fold ez in Hexp, Hman.
  destruct (shl_align m e e1) as [mz ez']. cbn [fst snd] in Hexp, Hman. subst ez'.
  assert (Hdig : Zdigits2 (Zpos mz) + ez = Zdigits2 (Zpos m) + e).
  { rewrite Hman, Zdigits2_mul_pow2 by lia. lia. }
  apply binary_round_aux_below; [lia| | |exact HM]; rewrite Hdig; fold e1;
    replace (Z.max ez e1) with e1 by lia.
  - exact He1.
  - rewrite Hman. exact Hmag.
Qed.

(** A number F32.below [2^K] rounds to a number F32.below [2^(K+1)], while that is
    in the range of [float32]. *)
Lemma binary_round_crude s m e K :
  Zdigits2 (Zpos m) + e <= K -> -149 <= K -> K <= 127 ->
  F32.below (K + 1) (binary_round F32.prec F32.emax s m e).
Proof.
  intros Hd Hlo Hhi.
  apply binary_round_below; [rewrite fexp32_eq; lia| |lia].
  set (d := Zdigits2 (Zpos m)) in *.
  set (e1 := (fexp F32.prec F32.emax) (d + e)). set (ez := Z.min e e1).
  assert (He1 : e1 = Z.max (d + e - 24) (-149)) by reflexivity.
  set (t := Z.max (d + e - e1) 0).
  assert (Hm : Zpos m < 2 ^ d) by (apply Zdigits2_lt_pow2; lia).
  assert (Hdpos : 0 <= d) by apply Zdigits2_nonneg.
  assert (Hq : Zpos m * 2 ^ (e - ez) / 2 ^ (e1 - ez) < 2 ^ t).
  { apply Z.div_lt_upper_bound; [apply Z.pow_pos_nonneg; lia|].
    rewrite <- Z.pow_add_r by lia.
    apply Z.lt_le_trans with (2 ^ d * 2 ^ (e - ez)).
    - apply Z.mul_lt_mono_pos_r; [apply Z.pow_pos_nonneg; lia | exact Hm].
    - rewrite <- Z.pow_add_r by lia. apply Z.pow_le_mono_r; lia. }
  assert (Hq0 : 0 <= Zpos m * 2 ^ (e - ez) / 2 ^ (e1 - ez)).
  { apply Z.div_pos; [|apply Z.pow_pos_nonneg; lia].
    apply Z.mul_nonneg_nonneg; [lia | apply Z.pow_nonneg; lia]. }
  assert (Hdq : Zdigits2 (Zpos m * 2 ^ (e - ez) / 2 ^ (e1 - ez) + 1) <= t + 1).
  { apply Zdigits2_le; [|lia]. split; [lia|].
    rewrite Z.pow_add_r by lia. change (2 ^ 1) with 2. lia. }
  lia.
Qed.

Lemma binary_normalize_crude z e sz K :
  Z.abs z < 2 ^ (K - e) -> e <= K -> -149 <= K -> K <= 127 ->
  F32.below (K + 1) (binary_normalize F32.prec F32.emax z e sz).
Proof.
  intros Hz He Hlo Hhi.
  destruct z as [|p|p]; cbn [binary_normalize]; [exact I| |];
    apply binary_round_crude; try lia;
    assert (Zdigits2 (Zpos p) <= K - e) by (apply Zdigits2_le; lia); lia.
Qed.

(** The scaled mantissa of a number F32.below [2^K]. *)
Lemma shl_align_below m e ez K :
  Zdigits2 (Zpos m) + e <= K -> ez <= e ->
  Zpos (fst (shl_align m e ez)) < 2 ^ (K - ez).
Proof.
  intros Hd Hez.
  destruct (shl_align_spec m e ez) as [_ ->].
  replace (Z.min e ez) with ez by lia.
  pose proof (Zdigits2_lt_pow2 (Zpos m) ltac:(lia)) as Hm.
  pose proof (Zdigits2_nonneg (Zpos m)).
  apply Z.lt_le_trans with (2 ^ Zdigits2 (Zpos m) * 2 ^ (e - ez)).
  - apply Z.mul_lt_mono_pos_r; [apply Z.pow_pos_nonneg; lia | exact Hm].
  - rewrite <- Z.pow_add_r by lia. apply Z.pow_le_mono_r; lia.
Qed.

Lemma below_mono K K' x : F32.below K x -> K <= K' -> F32.below K' x.
Proof. destruct x; cbn; intros; lia || auto. Qed.

Lemma add_below K a b :
  F32.below K a -> F32.below K b -> -150 <= K -> K <= 126 ->
  F32.below (K + 2) (SFadd F32.prec F32.emax a b).
Proof.
  intros Ha Hb Hlo Hhi.
  destruct a as [sa|sa| |sa ma ea], b as [sb|sb| |sb mb eb];
    cbn [F32.below] in Ha, Hb; try contradiction.
  - cbn. destruct sa, sb; exact I.
  - cbn [SFadd F32.below]. lia.
  - cbn [SFadd F32.below]. lia.
  - cbn [SFadd].
    set (ez := Z.min ea eb).
    pose proof (shl_align_below ma ea ez K Ha ltac:(lia)) as HA.
    pose proof (shl_align_below mb eb ez K Hb ltac:(lia)) as HB.
    pose proof (Zdigits2_nonneg (Zpos ma)). pose proof (Zdigits2_nonneg (Zpos mb)).
    assert (Hdpos : 0 < Zdigits2 (Zpos ma)) by (rewrite Zdigits2_log2; pose proof (Z.log2_nonneg (Zpos ma)); lia).
    replace (K + 2) with (K + 1 + 1) by lia.
    apply binary_normalize_crude; try lia.
    replace (K + 1 - ez) with (K - ez + 1) by lia.
    rewrite Z.pow_add_r by lia. change (2 ^ 1) with 2.
    destruct sa, sb; cbn [cond_Zopp]; lia.
Qed.


(** *** Adding pi to a finite angle *)

Lemma lit_pi_1 : @lit_pi spec_float _ 1 = F32.pi32.
Proof. reflexivity. Qed.

Lemma lit_pi_2 : @lit_pi spec_float _ 2 = F32.two_pi32.
Proof. reflexivity. Qed.

(** What [bounded] says of a mantissa and its exponent. *)
Lemma bounded_spec m e :
  bounded F32.prec F32.emax m e = true ->
  Zdigits2 (Zpos m) <= 24 /\ -149 <= e <= 104
  /\ (Zdigits2 (Zpos m) = 24 \/ e = -149).
Proof.
  unfold bounded, canonical_mantissa. intros Hb.
  apply andb_true_iff in Hb as [Hc He].
  apply Z.eqb_eq in Hc. apply Z.leb_le in He.
  change (Zpos (digits2_pos m)) with (Zdigits2 (Zpos m)) in Hc.
  rewrite fexp32_eq in Hc.
  change (F32.emax - F32.prec) with 104 in He. lia.
Qed.

(** Rounding just under the largest [float32]. *)
Lemma binary_normalize_fine z sz :
  2 ^ 149 <= Z.abs z < (2 ^ 24 - 1) * 2 ^ 126 ->
  F32.below 128 (binary_normalize F32.prec F32.emax z (-22) sz).
Proof.
  intros [Hlo Hhi].
  assert (Hround : forall s p, 2 ^ 149 <= Zpos p < (2 ^ 24 - 1) * 2 ^ 126 ->
            F32.below 128 (binary_round F32.prec F32.emax s p (-22))).
  { intros s p [Hplo Hphi].
    assert (Hd : Zdigits2 (Zpos p) = 150).
    { apply Zdigits2_eq; [|lia]. change (150 - 1) with 149. split; [exact Hplo|].
      apply Z.lt_trans with ((2 ^ 24 - 1) * 2 ^ 126); [exact Hphi | reflexivity]. }
    pose proof (binary_round_below s p (-22) 128) as Hb. cbv zeta in Hb.
    rewrite Hd in Hb. change ((fexp F32.prec F32.emax) (150 + -22)) with 104 in Hb.
    change (Z.min (-22) 104) with (-22) in Hb.
    change (-22 - -22) with 0 in Hb. change (104 - -22) with 126 in Hb.
    rewrite Z.pow_0_r, Z.mul_1_r in Hb.
    apply Hb; try lia.
    assert (Hq : Zpos p / 2 ^ 126 < 2 ^ 24 - 1).
    { apply Z.div_lt_upper_bound; [reflexivity|]. lia. }
    assert (Hq0 : 0 <= Zpos p / 2 ^ 126) by (apply Z.div_pos; [lia | reflexivity]).
    assert (Zdigits2 (Zpos p / 2 ^ 126 + 1) <= 24); [|lia].
    apply Zdigits2_le; lia. }
  destruct z as [|p|p]; cbn [binary_normalize]; [exact I| |]; apply Hround; lia.
Qed.


Lemma add_pi_max : F32.below 128 (SFadd F32.prec F32.emax F32.max32 F32.pi32).
Proof. vm_compute. discriminate. Qed.

(** Adding [pi] to a finite [float32] does not overflow. *)
Lemma add_pi_below th :
  F32.is_finite th = true -> F32.below 128 (SFadd F32.prec F32.emax th F32.pi32).
Proof.
  destruct th as [s|s| |s m e]; cbn [F32.is_finite];
    try (intros Hfin; discriminate Hfin).
  - intros _. destruct s; cbn; lia.
  - intros Hb. apply bounded_spec in Hb as (Hd & He & Hcan).
    assert (Hm : Zpos m < 2 ^ 24).
    { apply Z.lt_le_trans with (2 ^ Zdigits2 (Zpos m)).
      - apply Zdigits2_lt_pow2. lia.
      - apply Z.pow_le_mono_r; lia. }
    unfold F32.pi32. cbn [SFadd].
    set (ez := Z.min e (-22)).
    destruct (shl_align_spec m e ez) as [_ HA].
    destruct (shl_align_spec 13176795 (-22) ez) as [_ HP].
    replace (Z.min e ez) with ez in HA by lia.
    replace (Z.min (-22) ez) with ez in HP by lia.
    rewrite HA, HP.
    destruct (Z_le_gt_dec e 103) as [Hsmall|Hbig].
    + (* F32.below 2^127 *)
      change 128 with (127 + 1).
      apply binary_normalize_crude; try lia.
      set (A := 2 ^ (103 - ez)).
      assert (HApos : 0 < A) by (apply Z.pow_pos_nonneg; lia).
      assert (H127 : 2 ^ (127 - ez) = 2 ^ 24 * A).
      { unfold A. rewrite <- Z.pow_add_r by lia. f_equal. lia. }
      assert (Hpow1 : 0 < 2 ^ (e - ez) <= A).
      { split; [apply Z.pow_pos_nonneg; lia|]. apply Z.pow_le_mono_r; lia. }
      assert (Hpow2 : 0 < 2 ^ (-22 - ez) /\ 2 ^ 24 * 2 ^ (-22 - ez) <= A).
      { split; [apply Z.pow_pos_nonneg; lia|].
        rewrite <- Z.pow_add_r by lia. apply Z.pow_le_mono_r; lia. }
      rewrite H127.
      assert (Zpos m * 2 ^ (e - ez) <= (2 ^ 24 - 1) * A) by nia.
      assert (13176795 * 2 ^ (-22 - ez) < A) by (change (2 ^ 24) with 16777216 in *; nia).
      destruct s; cbn [cond_Zopp]; lia.
    + (* the top binade *)
      assert (e = 104) by lia. subst e.
      assert (Hd24 : Zdigits2 (Zpos m) = 24) by lia.
      pose proof (Zdigits2_ge_pow2 m) as Hmlo. rewrite Hd24 in Hmlo.
      change (2 ^ (24 - 1)) with 8388608 in Hmlo.
      change (2 ^ 24) with 16777216 in Hm.
      subst ez. change (Z.min 104 (-22)) with (-22).
      change (104 - -22) with 126. change (-22 - -22) with 0.
      rewrite Z.pow_0_r, Z.mul_1_r.
      set (B := 2 ^ 126) in *.
      assert (HB : B = 2 ^ 126) by reflexivity.
      assert (HBpos : 13176795 < B) by (subst B; reflexivity).
      assert (H149 : 2 ^ 149 = 8388608 * B) by (subst B; reflexivity).
      destruct s; cbn [cond_Zopp].
      * (* th < 0 *)
        destruct (Z.eq_dec (Zpos m) 8388608) as [Hmin|Hnmin].
        -- change 128 with (127 + 1).
           apply binary_normalize_crude; try lia.
        -- apply binary_normalize_fine.
           rewrite H149. change (2 ^ 24 - 1) with 16777215. fold B. lia.
      * (* 0 < th *)
        destruct (Z.eq_dec (Zpos m) 16777215) as [Hmax|Hnmax].
        -- injection Hmax as ->.
           pose proof add_pi_max as Hmax. unfold F32.max32, F32.pi32 in Hmax.
           cbn [SFadd] in Hmax.
           destruct (shl_align_spec 16777215 104 (Z.min 104 (-22))) as [_ HA'].
           destruct (shl_align_spec 13176795 (-22) (Z.min 104 (-22))) as [_ HP'].
           rewrite HA', HP' in Hmax. cbn [cond_Zopp] in Hmax.
           change (Z.min 104 (Z.min 104 (-22))) with (-22) in Hmax.
           change (Z.min (-22) (Z.min 104 (-22))) with (-22) in Hmax.
           change (104 - -22) with 126 in Hmax. change (-22 - -22) with 0 in Hmax.
           rewrite Z.pow_0_r, Z.mul_1_r in Hmax. exact Hmax.
        -- apply binary_normalize_fine.
           rewrite H149. change (2 ^ 24 - 1) with 16777215. fold B. lia.
Qed.

(** *** The floor modulo, and the normalized angle *)

Lemma below_not_nan K x : F32.below K x -> x <> S754_nan.
Proof. destruct x; cbn; intros H; try contradiction; discriminate. Qed.

Lemma two_pi32_below : F32.below 4 F32.two_pi32.
Proof. cbn. lia. Qed.

(** The remainder of a number by [2 pi] is a number F32.below 8. *)
Lemma fmod_below K x : F32.below K x -> F32.below 4 (F32.fmod x F32.two_pi32).
Proof.
  destruct x as [s|s| |s m e]; cbn [F32.below]; try contradiction; intros Hx.
  - exact I.
  - unfold F32.two_pi32. cbn [F32.fmod].
    set (ez := Z.min e (-21)).
    destruct (shl_align_spec 13176795 (-21) ez) as [_ HY].
    replace (Z.min (-21) ez) with ez in HY by lia.
    set (X := Zpos (fst (shl_align m e ez))) in *.
    set (Y := Zpos (fst (shl_align 13176795 (-21) ez))) in *.
    assert (HX : 0 <= X) by (subst X; lia).
    assert (HYpos : 0 < Y) by (subst Y; lia).
    pose proof (Z.rem_bound_pos X Y HX HYpos) as Hrem.
    assert (HYlt : Y < 2 ^ (3 - ez)).
    { rewrite HY. replace (3 - ez) with (24 + (-21 - ez)) by lia.
      rewrite Z.pow_add_r by lia.
      apply Z.mul_lt_mono_pos_r; [apply Z.pow_pos_nonneg; lia | reflexivity]. }
    change 4 with (3 + 1).
    apply binary_normalize_crude; try lia.
    destruct s; cbn [cond_Zopp]; lia.
Qed.

Lemma floormod_not_nan K a :
  F32.below K a -> F32.floormod a F32.two_pi32 <> S754_nan.
Proof.
  intros Ha. unfold F32.floormod.
  pose proof (fmod_below K a Ha) as Ht.
  destruct (Bool.eqb _ _).
  - apply (below_not_nan 4), Ht.
  - apply (below_not_nan 4), (fmod_below 6).
    apply (add_below 4); [exact Ht | exact two_pi32_below | lia | lia].
Qed.

Lemma sub_pi_not_nan r :
  r <> S754_nan -> SFsub F32.prec F32.emax r F32.pi32 <> S754_nan.
Proof.
  unfold F32.pi32. destruct r as [s|s| |s m e]; cbn [SFsub]; intros Hr; try discriminate.
  - contradiction.
  - apply binary_normalize_not_nan.
Qed.

(** The normalized angle of a finite angle is never a NaN. *)
Lemma normalized_th_not_nan th :
  F32.is_finite th = true -> normalized_th th <> S754_nan.
Proof.
  intros Hth. unfold normalized_th.
  rewrite lit_pi_1, lit_pi_2.
  cbn [tadd tsub tmod F32_Arith].
  apply sub_pi_not_nan, (floormod_not_nan 128), add_pi_below, Hth.
Qed.

Lemma is_finite_not_nan x : F32.is_finite x = true -> x <> S754_nan.
Proof. destruct x; cbn; intros; discriminate. Qed.

Lemma signed_nonneg x : F32.signed false x -> F32.is_nonneg x = true.
Proof. destruct x; cbn; intros H; subst; try reflexivity. contradiction. Qed.

(** *** What rounding gives, in units of 2^-149 *)

Lemma shr_fexp_noshift z e :
  fexp F32.prec F32.emax (Zdigits2 z + e) <= e ->
  fst (shr_fexp F32.prec F32.emax z e loc_Exact) = shr_record_of_loc z loc_Exact.
Proof.
  intros Hle. unfold shr_fexp, shr.
  destruct (fexp F32.prec F32.emax (Zdigits2 z + e) - e) eqn:Hn; try reflexivity. lia.
Qed.

Lemma pow2_pos k : 0 <= k -> 0 < 2 ^ k.
Proof. intros Hk. apply Z.pow_pos_nonneg; lia. Qed.

Lemma bounded_intro m e :
  Zdigits2 (Zpos m) = 24 \/ (e = -149 /\ Zdigits2 (Zpos m) <= 24) ->
  -149 <= e <= 104 ->
  bounded F32.prec F32.emax m e = true.
Proof.
  intros Hd He. unfold bounded, canonical_mantissa.
  change (Zpos (digits2_pos m)) with (Zdigits2 (Zpos m)).
  rewrite fexp32_eq. change (F32.emax - F32.prec) with 104.
  apply andb_true_iff. split; [apply Z.eqb_eq | apply Z.leb_le]; lia.
Qed.

Lemma binary_round_aux_finite s z e s' m' e' :
  0 < z -> e <= fexp F32.prec F32.emax (Zdigits2 z + e) ->
  binary_round_aux F32.prec F32.emax s z e loc_Exact = S754_finite s' m' e' ->
  let e1 := fexp F32.prec F32.emax (Zdigits2 z + e) in
  s' = s /\ bounded F32.prec F32.emax m' e' = true /\ e1 <= e'
  /\ exists m2, z / 2 ^ (e1 - e) <= m2 <= z / 2 ^ (e1 - e) + 1
       /\ (e1 = e -> m2 = z)
       /\ Zpos m' * 2 ^ (e' - e1) = m2.
Proof.
  intros Hz Hnorm Hround e1.
  assert (Hz0 : 0 <= z) by lia.
  unfold binary_round_aux in Hround.
  destruct (shr_fexp_exact F32.prec F32.emax z e loc_Exact Hz0) as [Hexp Hman].
  fold e1 in Hexp, Hman.
  replace (Z.max e e1) with e1 in Hexp, Hman by lia.
  assert (Hexact : e1 = e ->
            loc_of_shr_record (fst (shr_fexp F32.prec F32.emax z e loc_Exact)) = loc_Exact).
  { intros He. rewrite shr_fexp_noshift by (fold e1; lia). reflexivity. }
  destruct (shr_fexp F32.prec F32.emax z e loc_Exact) as [mrs' ex'].
  cbn [fst snd] in Hexp, Hman, Hexact. subst ex'.
  set (m1 := z / 2 ^ (e1 - e)) in *.
  assert (He1 : e1 = Z.max (Zdigits2 z + e - 24) (-149)) by reflexivity.
  assert (Hd : 0 <= Zdigits2 z) by apply Zdigits2_nonneg.
  assert (Hm1 : 0 <= m1 < 2 ^ 24).
  { split.
    - apply Z.div_pos; [lia | apply pow2_pos; lia].
    - apply Z.div_lt_upper_bound; [apply pow2_pos; lia|].
      rewrite <- Z.pow_add_r by lia.
      apply Z.lt_le_trans with (2 ^ Zdigits2 z); [apply Zdigits2_lt_pow2; lia|].
      apply Z.pow_le_mono_r; lia. }
  assert (Hm1lo : -149 < e1 -> 2 ^ 23 <= m1).
  { intros Hnormal.
    assert (Hzpos : exists p, z = Zpos p) by (destruct z; try lia; eauto).
    destruct Hzpos as [p Hp].
    pose proof (Zdigits2_ge_pow2 p) as Hlo. rewrite <- Hp in Hlo.
    apply Z.div_le_lower_bound; [apply pow2_pos; lia|].
    rewrite <- Z.pow_add_r by lia.
    replace (e1 - e + 23) with (Zdigits2 z - 1) by lia. exact Hlo. }
  pose proof (round_nearest_even_bounds (shr_m mrs') (loc_of_shr_record mrs')) as Hrnd.
  set (m2 := round_nearest_even (shr_m mrs') (loc_of_shr_record mrs')) in *.
  rewrite Hman in Hrnd.
  assert (Hm2z : e1 = e -> m2 = z).
  { intros He. subst m2. rewrite (Hexact He), Hman. subst m1.
    rewrite He, Z.sub_diag, Z.div_1_r. reflexivity. }
  assert (Hm2 : 0 <= m2) by lia.
  destruct (shr_fexp_exact F32.prec F32.emax m2 e1 loc_Exact Hm2) as [Hexp2 Hman2].
  destruct (shr_fexp F32.prec F32.emax m2 e1 loc_Exact) as [mrs'' e''].
  cbn [fst snd] in Hexp2, Hman2.
  rewrite fexp32_eq in Hexp2, Hman2.
  destruct (Z_lt_le_dec m2 (2 ^ 24)) as [Hsmall|Hbig].
  - assert (Hd2 : Zdigits2 m2 <= 24) by (apply Zdigits2_le; lia).
    replace (Z.max e1 (Z.max (Zdigits2 m2 + e1 - 24) (-149))) with e1 in Hexp2, Hman2 by lia.
    rewrite Z.sub_diag, Z.div_1_r in Hman2. subst e''.
    rewrite Hman2 in Hround.
    destruct m2 as [|p|p]; try discriminate Hround.
    destruct (e1 <=? F32.emax - F32.prec) eqn:Hfit; try discriminate Hround.
    apply Z.leb_le in Hfit. change (F32.emax - F32.prec) with 104 in Hfit.
    injection Hround as <- <- <-.
    split; [reflexivity|]. split.
    { apply bounded_intro; [|lia].
      destruct (Z.eq_dec e1 (-149)) as [Hsub|Hnormal]; [right; lia|].
      left. apply Zdigits2_eq; [|lia]. change (24 - 1) with 23.
      assert (2 ^ 23 <= m1) by (apply Hm1lo; lia). lia. }
    split; [lia|].
    exists (Zpos p). rewrite Z.sub_diag, Z.mul_1_r.
    split; [exact Hrnd|]. split; [exact Hm2z | reflexivity].
  - assert (Heq : m2 = 2 ^ 24) by lia.
    assert (Hd2 : Zdigits2 m2 = 25) by (rewrite Heq; reflexivity).
    rewrite Hd2 in Hexp2, Hman2.
    replace (Z.max e1 (Z.max (25 + e1 - 24) (-149))) with (e1 + 1) in Hexp2, Hman2 by lia.
    replace (e1 + 1 - e1) with 1 in Hman2 by lia.
    rewrite Heq in Hman2. change (2 ^ 24 / 2 ^ 1) with 8388608 in Hman2.
    subst e''. rewrite Hman2 in Hround.
    destruct (e1 + 1 <=? F32.emax - F32.prec) eqn:Hfit; try discriminate Hround.
    apply Z.leb_le in Hfit. change (F32.emax - F32.prec) with 104 in Hfit.
    injection Hround as <- <- <-.
    split; [reflexivity|]. split; [apply bounded_intro; [left; reflexivity | lia]|].
    split; [lia|].
    exists m2. split; [lia|]. split; [exact Hm2z|].
    replace (e1 + 1 - e1) with 1 by lia. rewrite Heq. reflexivity.
Qed.

Lemma binary_round_ulps s p e s' m' e' :
  -149 <= e ->
  binary_round F32.prec F32.emax s p e = S754_finite s' m' e' ->
  let S := Zpos p * 2 ^ (e + 149) in
  let j := Z.max (Zdigits2 S - 24) 0 in
  s' = s /\ bounded F32.prec F32.emax m' e' = true
  /\ exists m2, S / 2 ^ j <= m2 <= S / 2 ^ j + 1
       /\ (Zdigits2 (Zpos p) <= 24 -> m2 * 2 ^ j = S)
       /\ Zpos m' * 2 ^ (e' + 149) = m2 * 2 ^ j.
Proof.
  intros He Hround S j.
  unfold binary_round in Hround.
  set (e1 := fexp F32.prec F32.emax (Zdigits2 (Zpos p) + e)).
  change (fexp F32.prec F32.emax (Z.pos (digits2_pos p) + e)) with e1 in Hround.
  destruct (shl_align_spec p e e1) as [Hexp Hman].
  destruct (shl_align p e e1) as [mz ez]. cbn [fst snd] in Hexp, Hman. subst ez.
  set (ez := Z.min e e1) in *.
  assert (He1 : e1 = Z.max (Zdigits2 (Zpos p) + e - 24) (-149)) by reflexivity.
  assert (Hdp : 0 < Zdigits2 (Zpos p)).
  { rewrite Zdigits2_log2. pose proof (Z.log2_nonneg (Zpos p)). lia. }
  assert (Hdig : Zdigits2 (Zpos mz) + ez = Zdigits2 (Zpos p) + e).
  { rewrite Hman, Zdigits2_mul_pow2 by lia. lia. }
  assert (HdS : Zdigits2 S = Zdigits2 (Zpos p) + e + 149).
  { unfold S. rewrite Zdigits2_mul_pow2 by lia. lia. }
  assert (Hj : j = e1 + 149) by (unfold j; lia).
  assert (Hnorm : ez <= fexp F32.prec F32.emax (Zdigits2 (Zpos mz) + ez)).
  { rewrite Hdig. fold e1. lia. }
  destruct (binary_round_aux_finite s (Zpos mz) ez s' m' e' ltac:(lia) Hnorm Hround)
    as (Hs & Hd' & He' & m2 & Hm2 & Hex & Hval).
  rewrite Hdig in He', Hm2, Hex, Hval. fold e1 in He', Hm2, Hex, Hval.
  split; [exact Hs|]. split; [exact Hd'|].
  exists m2.
  assert (Hq : S / 2 ^ j = Zpos mz / 2 ^ (e1 - ez)).
  { rewrite Hman, Hj. unfold S.
    destruct (Z_le_gt_dec e1 e) as [Hle|Hgt].
    - replace ez with e1 by lia. rewrite Z.sub_diag, Z.div_1_r.
      replace (e + 149) with ((e - e1) + (e1 + 149)) by lia.
      rewrite (Z.pow_add_r 2 (e - e1) (e1 + 149)), Z.mul_assoc by lia.
      rewrite Z.div_mul by (pose proof (pow2_pos (e1 + 149)); lia).
      replace (Z.min e e1) with e1 by lia. reflexivity.
    - replace ez with e by lia.
      replace (Z.min e e) with e by lia.
      rewrite Z.sub_diag, Z.pow_0_r, Z.mul_1_r.
      replace (e1 + 149) with ((e1 - e) + (e + 149)) by lia.
      rewrite (Z.pow_add_r 2 (e1 - e) (e + 149)) by lia.
      rewrite Z.div_mul_cancel_r; [reflexivity| |];
        [pose proof (pow2_pos (e1 - e)) | pose proof (pow2_pos (e + 149))]; lia. }
  rewrite Hq. split; [exact Hm2|]. split.
  - intros Hp24. assert (Hle : e1 <= e) by lia.
    assert (Hez : ez = e1) by lia.
    rewrite (Hex (eq_sym Hez)), Hman, Hj. unfold S.
    rewrite <- Z.mul_assoc, <- Z.pow_add_r by lia. f_equal. f_equal. lia.
  - apply bounded_spec in Hd'.
    rewrite <- Hval, Hj, <- Z.mul_assoc, <- Z.pow_add_r by lia. f_equal. f_equal. lia.
Qed.

(** What rounding an integer count of units gives, when it gives a number. *)
Lemma normalize_finite z e sz s' m' e' :
  -149 <= e ->
  binary_normalize F32.prec F32.emax z e sz = S754_finite s' m' e' ->
  let S := Z.abs z * 2 ^ (e + 149) in
  let j := Z.max (Zdigits2 S - 24) 0 in
  s' = (z <? 0) /\ F32.is_finite (S754_finite s' m' e') = true
  /\ exists m2, S / 2 ^ j <= m2 <= S / 2 ^ j + 1
       /\ (Zdigits2 (Z.abs z) <= 24 -> m2 * 2 ^ j = S)
       /\ Zpos m' * 2 ^ (e' + 149) = m2 * 2 ^ j.
Proof.
  intros He Hr S j.
  destruct z as [|p|p]; cbn [binary_normalize] in Hr; [discriminate Hr| |];
    destruct (binary_round_ulps _ _ _ _ _ _ He Hr) as (Hs & Hd & m2 & Hm2 & Hex & Hval);
    (split; [subst s'; reflexivity|]); (split; [exact Hd|]);
    exists m2; repeat split; try apply Hm2; assumption.
Qed.

(** A count of units that rounds to a number rounds to itself when it
    has 24 binary digits at most. *)
Lemma normalize_exact z e sz s' m' e' :
  -149 <= e ->
  binary_normalize F32.prec F32.emax z e sz = S754_finite s' m' e' ->
  Zdigits2 (Z.abs z) <= 24 ->
  Zpos m' * 2 ^ (e' + 149) = Z.abs z * 2 ^ (e + 149).
Proof.
  intros He Hr Hd.
  destruct (normalize_finite _ _ _ _ _ _ He Hr) as (_ & _ & m2 & _ & Hex & Hval).
  rewrite Hval. apply Hex, Hd.
Qed.

(** Rounding does not carry a count of units beyond a number that
    [float32] has: [B * 2^k] with [B] of 24 digits at most. *)
Lemma normalize_le z e sz s' m' e' B k :
  -149 <= e ->
  binary_normalize F32.prec F32.emax z e sz = S754_finite s' m' e' ->
  0 < B <= 2 ^ 24 -> 0 <= k ->
  Z.abs z * 2 ^ (e + 149) < B * 2 ^ k ->
  Zpos m' * 2 ^ (e' + 149) <= B * 2 ^ k.
Proof.
  intros He Hr HB Hk Hlt.
  destruct (normalize_finite _ _ _ _ _ _ He Hr) as (_ & _ & m2 & Hm2 & _ & Hval).
  rewrite Hval. clear Hval Hr.
  set (S := Z.abs z * 2 ^ (e + 149)) in *.
  set (j := Z.max (Zdigits2 S - 24) 0) in *.
  assert (HS : 0 <= S).
  { unfold S. apply Z.mul_nonneg_nonneg; [lia | apply Z.pow_nonneg; lia]. }
  assert (Hjk : j <= k).
  { assert (Zdigits2 S <= 24 + k); [|lia].
    apply Zdigits2_le; [|lia]. split; [exact HS|].
    apply Z.lt_le_trans with (B * 2 ^ k); [exact Hlt|].
    rewrite Z.pow_add_r by lia.
    apply Z.mul_le_mono_nonneg_r; [apply Z.pow_nonneg; lia | lia]. }
  assert (Hj0 : 0 <= j) by lia.
  pose proof (pow2_pos j Hj0) as Hpj.
  assert (Hsplit : B * 2 ^ k = (B * 2 ^ (k - j)) * 2 ^ j).
  { rewrite <- Z.mul_assoc, <- Z.pow_add_r by lia. f_equal. f_equal. lia. }
  rewrite Hsplit in *.
  apply Z.mul_le_mono_nonneg_r; [lia|].
  assert (S / 2 ^ j < B * 2 ^ (k - j)); [|lia].
  apply Z.div_lt_upper_bound; [exact Hpj|]. lia.
Qed.

(** *** The range of the normalized angle *)

Lemma align_ulps m e ez :
  ez <= e -> -149 <= ez ->
  Zpos (fst (shl_align m e ez)) * 2 ^ (ez + 149) = Zpos m * 2 ^ (e + 149).
Proof.
  intros Hle Hlo. destruct (shl_align_spec m e ez) as [_ ->].
  replace (Z.min e ez) with ez by lia.
  rewrite <- Z.mul_assoc, <- Z.pow_add_r by lia. f_equal. f_equal. lia.
Qed.

Lemma below_cases K x :
  F32.below K x -> (exists s, x = S754_zero s) \/ (exists s m e, x = S754_finite s m e).
Proof.
  destruct x as [s|s| |s m e]; cbn; intros Hx; try contradiction; eauto.
Qed.

(** The remainder of a number by [2 pi]: it has the sign of the number,
    it is exact, and it is a unit in the last place of [2 pi] under
    [2 pi] at least. *)
Lemma fmod_finite sa ma ea s m e :
  bounded F32.prec F32.emax ma ea = true ->
  F32.fmod (S754_finite sa ma ea) F32.two_pi32 = S754_finite s m e ->
  s = sa /\ bounded F32.prec F32.emax m e = true
  /\ Zpos m * 2 ^ (e + 149) <= 13176794 * 2 ^ 128.
Proof.
  intros Hb. apply bounded_spec in Hb as (Hd & He & _).
  unfold F32.two_pi32. cbn [F32.fmod].
  set (ez := Z.min ea (-21)).
  assert (Hez : -149 <= ez) by lia.
  pose proof (align_ulps ma ea ez ltac:(lia) Hez) as HX.
  pose proof (align_ulps 13176795 (-21) ez ltac:(lia) Hez) as HY.
  destruct (shl_align_spec ma ea ez) as [_ HX'].
  destruct (shl_align_spec 13176795 (-21) ez) as [_ HY'].
  replace (Z.min ea ez) with ez in HX' by lia.
  replace (Z.min (-21) ez) with ez in HY' by lia.
  set (X := Zpos (fst (shl_align ma ea ez))) in *.
  set (Y := Zpos (fst (shl_align 13176795 (-21) ez))) in *.
  assert (HXpos : 0 < X) by (subst X; lia).
  assert (HYpos : 0 < Y) by (subst Y; lia).
  pose proof (Z.rem_bound_pos X Y ltac:(lia) HYpos) as Hrem.
  assert (HremX : Z.rem X Y <= X).
  { rewrite Z.rem_mod_nonneg by lia. apply Z.mod_le; lia. }
  set (rem := Z.rem X Y) in *.
  intros Hr.
  assert (Hrem0 : rem <> 0).
  { intros H0. rewrite H0 in Hr. destruct sa; discriminate Hr. }
  assert (Habs : Z.abs (cond_Zopp sa rem) = rem) by (destruct sa; cbn [cond_Zopp]; lia).
  destruct (normalize_finite _ _ _ _ _ _ Hez Hr) as (Hs & Hfin & _).
  assert (Hdrem : Zdigits2 rem <= 24).
  { destruct (Z_le_gt_dec (-21) ea) as [Hbig|Hsmall].
    - apply Zdigits2_le; [|lia]. split; [lia|].
      assert (Y = 13176795); [|lia].
      rewrite HY'. replace ez with (-21) by lia. reflexivity.
    - apply Z.le_trans with (Zdigits2 X).
      + apply Zdigits2_mono. lia.
      + rewrite HX'. replace ez with ea by lia. rewrite Z.sub_diag, Z.mul_1_r. exact Hd. }
  pose proof (normalize_exact _ _ _ _ _ _ Hez Hr ltac:(rewrite Habs; exact Hdrem)) as Hval.
  rewrite Habs in Hval.
  split; [|split; [exact Hfin|]].
  - rewrite Hs. destruct sa; cbn [cond_Zopp]; [apply Z.ltb_lt | apply Z.ltb_ge]; lia.
  - rewrite Hval.
    assert (Hp : 0 < 2 ^ (ez + 149)) by (apply pow2_pos; lia).
    destruct (Z_le_gt_dec (-21) ea) as [Hbig|Hsmall].
    + assert (Hezv : ez = -21) by lia. rewrite Hezv in *.
      change (-21 + 149) with 128 in *.
      assert (Y = 13176795) by (rewrite HY'; reflexivity).
      apply Z.mul_le_mono_nonneg_r; lia.
    + assert (Hezv : ez = ea) by lia.
      apply Z.le_trans with (X * 2 ^ (ez + 149)); [apply Z.mul_le_mono_nonneg_r; lia|].
      rewrite HX.
      assert (Hma : Zpos ma < 2 ^ 24).
      { apply Z.lt_le_trans with (2 ^ Zdigits2 (Zpos ma));
          [apply Zdigits2_lt_pow2; lia | apply Z.pow_le_mono_r; lia]. }
      assert (Hpe : 0 < 2 ^ (ea + 149) <= 2 ^ 127).
      { split; [apply pow2_pos; lia | apply Z.pow_le_mono_r; lia]. }
      change (13176794 * 2 ^ 128) with (26353588 * 2 ^ 127).
      change (2 ^ 24) with 16777216 in Hma. nia.
Qed.

Lemma fmod_in_turn m e :
  bounded F32.prec F32.emax m e = true ->
  F32.in_turn (F32.fmod (S754_finite false m e) F32.two_pi32).
Proof.
  intros Hbd.
  pose proof (fmod_below (Zdigits2 (Zpos m) + e) (S754_finite false m e)
                ltac:(cbn [F32.below]; lia)) as Hb.
  apply below_cases in Hb as [[s Hz] | (s & m' & e' & Hf)].
  - left. eauto.
  - right. destruct (fmod_finite _ _ _ _ _ _ Hbd Hf) as (-> & Hfin & Hle).
    exists m', e'. rewrite Hf. auto.
Qed.

Lemma floormod_in_turn a :
  F32.is_finite a = true -> F32.in_turn (F32.floormod a F32.two_pi32).
Proof.
  intros Ha. unfold F32.floormod.
  destruct a as [s|s| |[|] m e]; cbn [F32.is_finite] in Ha;
    try (discriminate Ha).
  - left. exists s. reflexivity.
  - (* a negative number *)
    change (Bool.eqb (SFltb (S754_finite true m e) F32.zero)
                     (SFltb F32.two_pi32 F32.zero)) with false.
    cbv iota.
    pose proof (fmod_below (Zdigits2 (Zpos m) + e) (S754_finite true m e)
                  ltac:(cbn [F32.below]; lia)) as Hb.
    pose proof Hb as Hb'.
    apply below_cases in Hb' as [[s Hz] | (s & mt & et & Hf)].
    + rewrite Hz. left. exists false. reflexivity.
    + destruct (fmod_finite _ _ _ _ _ _ Ha Hf) as (-> & Hbt & Hle).
      rewrite Hf in *.
      pose proof (bounded_spec _ _ Hbt) as (Hdt & Het & _).
      pose proof (add_below 4 _ _ Hb two_pi32_below ltac:(lia) ltac:(lia)) as Hb2.
      pose proof Hb2 as Hb2'.
      apply below_cases in Hb2' as [[s Hz] | (s2 & m2 & e2 & Hf2)].
      * rewrite Hz. left. exists s. reflexivity.
      * rewrite Hf2.
        unfold F32.two_pi32 in Hf2. cbn [SFadd] in Hf2.
        set (ez := Z.min et (-21)) in *.
        assert (Hez : -149 <= ez) by lia.
        destruct (normalize_finite _ _ _ _ _ _ Hez Hf2) as (Hs2 & Hfin2 & _).
        pose proof (align_ulps mt et ez ltac:(lia) Hez) as HX.
        pose proof (align_ulps 13176795 (-21) ez ltac:(lia) Hez) as HY.
        change (-21 + 149) with 128 in HY.
        assert (Hp : 0 < 2 ^ (ez + 149)) by (apply pow2_pos; lia).
        assert (Hs2' : s2 = false).
        { rewrite Hs2. apply Z.ltb_ge. cbn [cond_Zopp]. nia. }
        rewrite Hs2'. apply fmod_in_turn. exact Hfin2.
  - (* a positive number *)
    change (Bool.eqb (SFltb (S754_finite false m e) F32.zero)
                     (SFltb F32.two_pi32 F32.zero)) with true.
    cbv iota. apply fmod_in_turn; assumption.
Qed.

(** Taking [pi] off a number of [0, 2 pi). *)
Lemma sub_pi_in_turn r :
  F32.in_turn r ->
  F32.is_finite (SFsub F32.prec F32.emax r F32.pi32) = true
  /\ - (13176795 * 2 ^ 127) <= F32.ulps (SFsub F32.prec F32.emax r F32.pi32)
     < 13176795 * 2 ^ 127.
Proof.
  intros [[s ->] | (m & e & -> & Hbd & Hle)].
  - cbn. split; [reflexivity|]. split; [reflexivity | reflexivity].
  - apply bounded_spec in Hbd as (Hd & He & _).
    unfold F32.pi32. cbn [SFsub cond_Zopp].
    set (ez := Z.min e (-22)).
    assert (Hez : -149 <= ez) by lia.
    pose proof (align_ulps m e ez ltac:(lia) Hez) as HX.
    pose proof (align_ulps 13176795 (-22) ez ltac:(lia) Hez) as HY.
    change (-22 + 149) with 127 in HY.
    set (X := Zpos (fst (shl_align m e ez))) in *.
    set (Y := Zpos (fst (shl_align 13176795 (-22) ez))) in *.
    assert (Hp : 0 < 2 ^ (ez + 149)) by (apply pow2_pos; lia).
    change (13176794 * 2 ^ 128) with (26353588 * 2 ^ 127) in Hle.
    assert (H127 : 0 < 2 ^ 127) by reflexivity.
    set (n := binary_normalize F32.prec F32.emax (X - Y) ez false).
    assert (Hnum : F32.below 4 n).
    { change 4 with (3 + 1). apply binary_normalize_crude; try lia.
      assert (HXb : X * 2 ^ (ez + 149) < 2 ^ 152) by (change (2 ^ 152) with (33554432 * 2 ^ 127); lia).
      assert (HYb : Y * 2 ^ (ez + 149) < 2 ^ 152) by (rewrite HY; reflexivity).
      assert (H152 : 2 ^ 152 = 2 ^ (3 - ez) * 2 ^ (ez + 149)).
      { rewrite <- Z.pow_add_r by lia. f_equal. lia. }
      rewrite H152 in HXb, HYb.
      assert (0 < X) by (subst X; lia). assert (0 < Y) by (subst Y; lia).
      assert (X < 2 ^ (3 - ez)) by nia. assert (Y < 2 ^ (3 - ez)) by nia. lia. }
    apply below_cases in Hnum as [[s Hz] | (s' & m' & e' & Hf)].
    + rewrite Hz. cbn. split; [reflexivity | lia].
    + rewrite Hf.
      destruct (normalize_finite _ _ _ _ _ _ Hez Hf) as (Hs & Hfin & _).
      split; [exact Hfin|].
      cbn [F32.ulps].
      destruct (Z.ltb_spec (X - Y) 0) as [Hneg|Hpos]; subst s'; cbn [cond_Zopp].
      * assert (Hb : Zpos m' * 2 ^ (e' + 149) <= 13176795 * 2 ^ 127).
        { apply (normalize_le _ _ _ _ _ _ 13176795 127 Hez Hf); [lia | lia |].
          replace (Z.abs (X - Y)) with (Y - X) by lia. nia. }
        lia.
      * assert (Hb : Zpos m' * 2 ^ (e' + 149) <= 13176794 * 2 ^ 127).
        { apply (normalize_le _ _ _ _ _ _ 13176794 127 Hez Hf); [lia | lia |].
          replace (Z.abs (X - Y)) with (X - Y) by lia. nia. }
        lia.
Qed.

Lemma add_pi_finite th :
  F32.is_finite th = true ->
  F32.is_finite (SFadd F32.prec F32.emax th F32.pi32) = true.
Proof.
  intros Hth. pose proof (add_pi_below th Hth) as Hb.
  destruct th as [s|s| |s m e]; cbn [F32.is_finite] in Hth; try discriminate Hth.
  - reflexivity.
  - apply bounded_spec in Hth as (_ & He & _).
    apply below_cases in Hb as [[s' Hz] | (s' & m' & e' & Hf)].
    + rewrite Hz. reflexivity.
    + rewrite Hf. unfold F32.pi32 in Hf. cbn [SFadd] in Hf.
      apply normalize_finite in Hf; [apply Hf | lia].
Qed.

(** The normalized angle in units of [2^-149]. *)
Lemma normalized_th_ulps th :
  F32.is_finite th = true ->
  F32.is_finite (normalized_th th) = true
  /\ - (13176795 * 2 ^ 127) <= F32.ulps (normalized_th th) < 13176795 * 2 ^ 127.
Proof.
  intros Hth. unfold normalized_th. rewrite lit_pi_1, lit_pi_2.
  cbn [tadd tsub tmod F32_Arith].
  apply sub_pi_in_turn, floormod_in_turn, add_pi_finite, Hth.
Qed.

(** *** Products and sums that stay in range *)

Lemma Zdigits2_mul_le a b :
  0 < a -> 0 < b -> Zdigits2 (a * b) <= Zdigits2 a + Zdigits2 b.
Proof.
  intros Ha Hb.
  pose proof (Zdigits2_nonneg a). pose proof (Zdigits2_nonneg b).
  pose proof (Zdigits2_lt_pow2 a ltac:(lia)). pose proof (Zdigits2_lt_pow2 b ltac:(lia)).
  apply Zdigits2_le; [|lia]. split; [nia|].
  rewrite Z.pow_add_r by lia. nia.
Qed.

Lemma Zdigits2_mul_ge a b :
  Zdigits2 (Zpos a) + Zdigits2 (Zpos b) - 1 <= Zdigits2 (Zpos (a * b)).
Proof.
  pose proof (Zdigits2_ge_pow2 a) as Ha. pose proof (Zdigits2_ge_pow2 b) as Hb.
  pose proof (Zdigits2_lt_pow2 (Zpos (a * b)) ltac:(lia)) as Hab.
  assert (Hda : 0 < Zdigits2 (Zpos a)) by (rewrite Zdigits2_log2; pose proof (Z.log2_nonneg (Zpos a)); lia).
  assert (Hdb : 0 < Zdigits2 (Zpos b)) by (rewrite Zdigits2_log2; pose proof (Z.log2_nonneg (Zpos b)); lia).
  assert (Hlow : 2 ^ (Zdigits2 (Zpos a) + Zdigits2 (Zpos b) - 2) <= Zpos (a * b)).
  { replace (Zdigits2 (Zpos a) + Zdigits2 (Zpos b) - 2)
      with ((Zdigits2 (Zpos a) - 1) + (Zdigits2 (Zpos b) - 1)) by lia.
    rewrite Z.pow_add_r by lia. rewrite Pos2Z.inj_mul.
    apply Z.mul_le_mono_nonneg; try lia; apply Z.pow_nonneg; lia. }
  assert (Hlt : 2 ^ (Zdigits2 (Zpos a) + Zdigits2 (Zpos b) - 2) < 2 ^ Zdigits2 (Zpos (a * b))) by lia.
  apply Z.pow_lt_mono_r_iff in Hlt; [lia | lia | apply Zdigits2_nonneg].
Qed.

(** The product of two [float32] mantissas needs no shift to the left
    before it is rounded. *)
Lemma mul_normalized mx ex my ey :
  bounded F32.prec F32.emax mx ex = true ->
  bounded F32.prec F32.emax my ey = true ->
  ex + ey <= fexp F32.prec F32.emax (Zdigits2 (Zpos (mx * my)) + (ex + ey)).
Proof.
  intros Hx Hy.
  apply bounded_spec in Hx as (Hdx & Hex & Hcx).
  apply bounded_spec in Hy as (Hdy & Hey & Hcy).
  pose proof (Zdigits2_mul_ge mx my) as Hd.
  assert (Hda : 0 < Zdigits2 (Zpos mx)) by (rewrite Zdigits2_log2; pose proof (Z.log2_nonneg (Zpos mx)); lia).
  assert (Hdb : 0 < Zdigits2 (Zpos my)) by (rewrite Zdigits2_log2; pose proof (Z.log2_nonneg (Zpos my)); lia).
  rewrite fexp32_eq. lia.
Qed.

Lemma binary_round_aux_crude s z e K :
  0 < z -> Zdigits2 z + e <= K -> e <= 104 -> -149 <= K -> K <= 127 ->
  F32.below (K + 1) (binary_round_aux F32.prec F32.emax s z e loc_Exact).
Proof.
  intros Hz Hd He Hlo Hhi.
  assert (Hdpos : 0 < Zdigits2 z).
  { destruct z as [|p|p]; try lia. rewrite Zdigits2_log2. pose proof (Z.log2_nonneg (Zpos p)). lia. }
  apply binary_round_aux_below; [lia| | |lia].
  - rewrite fexp32_eq. lia.
  - set (d := Zdigits2 z) in *.
    set (e1 := Z.max e (fexp F32.prec F32.emax (d + e))).
    assert (He1 : e1 = Z.max e (Z.max (d + e - 24) (-149))) by reflexivity.
    set (t := Z.max (d + e - e1) 0).
    assert (Hm : z < 2 ^ d) by (apply Zdigits2_lt_pow2; lia).
    assert (Hq : z / 2 ^ (e1 - e) < 2 ^ t).
    { apply Z.div_lt_upper_bound; [apply pow2_pos; lia|].
      rewrite <- Z.pow_add_r by lia.
      apply Z.lt_le_trans with (2 ^ d); [exact Hm|].
      apply Z.pow_le_mono_r; lia. }
    assert (Hq0 : 0 <= z / 2 ^ (e1 - e)).
    { apply Z.div_pos; [lia | apply pow2_pos; lia]. }
    assert (Hdq : Zdigits2 (z / 2 ^ (e1 - e) + 1) <= t + 1).
    { apply Zdigits2_le; [|lia]. split; [lia|].
      rewrite Z.pow_add_r by lia. change (2 ^ 1) with 2. lia. }
    lia.
Qed.

(** A product of two [float32] numbers that stays under [2^127] is a
    [float32] number. *)
Lemma mul_finite Kx Ky x y :
  F32.is_finite x = true -> F32.is_finite y = true ->
  F32.below Kx x -> F32.below Ky y -> -149 <= Kx + Ky <= 127 ->
  F32.is_finite (SFmul F32.prec F32.emax x y) = true
  /\ F32.below (Kx + Ky + 1) (SFmul F32.prec F32.emax x y).
Proof.
  intros Hx Hy Hbx Hby HK.
  destruct x as [sx|sx| |sx mx ex], y as [sy|sy| |sy my ey];
    cbn [F32.is_finite] in Hx, Hy; try discriminate Hx; try discriminate Hy;
    cbn [SFmul]; try (split; [reflexivity | exact I]).
  cbn [F32.below] in Hbx, Hby.
  pose proof (mul_normalized mx ex my ey Hx Hy) as Hnorm.
  pose proof (Zdigits2_mul_le (Zpos mx) (Zpos my) ltac:(lia) ltac:(lia)) as Hd.
  change (Zpos mx * Zpos my) with (Zpos (mx * my)) in Hd.
  assert (He : ex + ey <= 104) by (rewrite fexp32_eq in Hnorm; lia).
  pose proof (binary_round_aux_crude (xorb sx sy) (Zpos (mx * my)) (ex + ey) (Kx + Ky)
                ltac:(lia) ltac:(lia) He ltac:(lia) ltac:(lia)) as Hb.
  split; [|exact Hb].
  apply below_cases in Hb as [[s Hz] | (s & m & e & Hf)].
  - rewrite Hz. reflexivity.
  - rewrite Hf. apply binary_round_aux_finite in Hf; [apply Hf | lia | exact Hnorm].
Qed.

(** A sum of two [float32] numbers under [2^126] is a [float32] number. *)
Lemma add_finite K x y :
  F32.is_finite x = true -> F32.is_finite y = true ->
  F32.below K x -> F32.below K y -> -150 <= K -> K <= 126 ->
  F32.is_finite (SFadd F32.prec F32.emax x y) = true
  /\ F32.below (K + 2) (SFadd F32.prec F32.emax x y).
Proof.
  intros Hx Hy Hbx Hby Hlo Hhi.
  pose proof (add_below K x y Hbx Hby Hlo Hhi) as Hb.
  split; [|exact Hb].
  destruct x as [sx|sx| |sx mx ex], y as [sy|sy| |sy my ey];
    cbn [F32.is_finite] in Hx, Hy; try discriminate Hx; try discriminate Hy.
  - destruct sx, sy; reflexivity.
  - exact Hy.
  - exact Hx.
  - apply bounded_spec in Hx as (_ & Hex & _). apply bounded_spec in Hy as (_ & Hey & _).
    apply below_cases in Hb as [[s Hz] | (s & m & e & Hf)].
    + rewrite Hz. reflexivity.
    + rewrite Hf. cbn [SFadd] in Hf.
      apply normalize_finite in Hf; [apply Hf | lia].
Qed.

Lemma ulps_below K x :
  F32.is_finite x = true -> Z.abs (F32.ulps x) < 2 ^ (K + 149) -> -149 <= K ->
  F32.below K x.
Proof.
  destruct x as [s|s| |s m e]; cbn [F32.is_finite F32.ulps F32.below];
    intros Hx Hlt HK; try discriminate Hx; [exact I|].
  apply bounded_spec in Hx as (_ & He & _).
  assert (Hp : 0 < 2 ^ (e + 149)) by (apply pow2_pos; lia).
  replace (Z.abs (cond_Zopp s (Zpos m * 2 ^ (e + 149)))) with (Zpos m * 2 ^ (e + 149)) in Hlt
    by (destruct s; cbn [cond_Zopp]; lia).
  assert (Hd : Zdigits2 (Zpos m * 2 ^ (e + 149)) <= K + 149) by (apply Zdigits2_le; lia).
  rewrite Zdigits2_mul_pow2 in Hd by lia. lia.
Qed.

Lemma square_finite K x :
  F32.is_finite x = true -> F32.below K x -> -149 <= K + K <= 127 ->
  F32.is_finite (tsquare x) = true /\ F32.below (K + K + 1) (tsquare x).
Proof. intros Hx Hb HK. apply mul_finite; assumption. Qed.

(** The cost stays a [float32] number while the angular velocity and the
    control are under [2^62]. *)
Lemma cost_finite (n thdot u : spec_float) :
  F32.is_finite n = true -> F32.below 2 n ->
  F32.is_finite thdot = true -> F32.below 62 thdot ->
  F32.is_finite u = true -> F32.below 62 u ->
  F32.is_finite
    (tadd (tadd (tsquare n) (tmul (lit (1 # 10)) (tsquare thdot)))
          (tmul (lit (1 # 1000)) (tsquare u))) = true.
Proof.
  intros Hn Hbn Hd Hbd Hu Hbu.
  change (@lit spec_float _ (1 # 10)) with (S754_finite false 13421773 (-27)).
  change (@lit spec_float _ (1 # 1000)) with (S754_finite false 8589935 (-33)).
  destruct (square_finite 2 n Hn Hbn ltac:(lia)) as [Hn2 Hbn2].
  destruct (square_finite 62 thdot Hd Hbd ltac:(lia)) as [Hd2 Hbd2].
  destruct (square_finite 62 u Hu Hbu ltac:(lia)) as [Hu2 Hbu2].
  cbn [tadd tmul F32_Arith].
  destruct (mul_finite (-3) (62 + 62 + 1) (S754_finite false 13421773 (-27)) (tsquare thdot)
              eq_refl Hd2 ltac:(cbn; lia) Hbd2 ltac:(lia)) as [Hcd Hbcd].
  destruct (mul_finite (-9) (62 + 62 + 1) (S754_finite false 8589935 (-33)) (tsquare u)
              eq_refl Hu2 ltac:(cbn; lia) Hbu2 ltac:(lia)) as [Hcu Hbcu].
  destruct (add_finite 123 (tsquare n) _ Hn2 Hcd
              ltac:(apply (below_mono (2 + 2 + 1)); [exact Hbn2 | lia])
              ltac:(apply (below_mono (-3 + (62 + 62 + 1) + 1)); [exact Hbcd | lia])
              ltac:(lia) ltac:(lia)) as [Hs1 Hbs1].
  apply (add_finite 125 _ _ Hs1 Hcu
           ltac:(apply (below_mono (123 + 2)); [exact Hbs1 | lia])
           ltac:(apply (below_mono (-9 + (62 + 62 + 1) + 1)); [exact Hbcu | lia])
           ltac:(lia) ltac:(lia)).
Qed.
End SinglePrecision.

(** *** Single-precision numbers as real numbers *)

(** [float32(pi)] is above [pi]. *)
Lemma PI_upper : PI < 13176795 / 4194304.
Proof.
  destruct (PI_2_3_7_ineq 3) as [_ Hup].
  apply Rle_lt_trans with (4 * sum_f_R0 (tg_alt PI_2_3_7_tg) (2 * 3)); [lra|].
  clear Hup.
  unfold sum_f_R0, tg_alt, PI_2_3_7_tg, Ratan_seq. cbn [Nat.mul Nat.add pow].
  cbn. lra.
Qed.

Lemma IZR_pow2 (k : Z) : (0 <= k)%Z -> IZR (2 ^ k) = powerRZ 2 k.
Proof.
  intros Hk. rewrite <- (Z2Nat.id k Hk) at 1 2.
  rewrite <- pow_IZR, <- pow_powerRZ. reflexivity.
Qed.

Lemma to_R_ulps x :
  F32.is_finite x = true -> F32.to_R x * IZR (2 ^ 149) = IZR (F32.ulps x).
Proof.
  destruct x as [s|s| |s m e]; cbn [F32.is_finite F32.to_R F32.ulps];
    intros Hx; try discriminate Hx; try lra.
  apply bounded_spec in Hx as (_ & He & _).
  replace (cond_Zopp s (Zpos m * 2 ^ (e + 149)))
    with (cond_Zopp s (Zpos m) * 2 ^ (e + 149))%Z by (destruct s; cbn [cond_Zopp]; ring).
  rewrite mult_IZR, (IZR_pow2 (e + 149)), (IZR_pow2 149) by lia.
  rewrite powerRZ_add by lra. ring.
Qed.

Lemma to_R_pi32 : F32.to_R F32.pi32 = 13176795 / 4194304.
Proof.
  unfold F32.to_R, F32.pi32. cbn [cond_Zopp].
  change (powerRZ 2 (-22)) with (/ 2 ^ 22).
  replace (2 ^ 22) with 4194304 by (simpl; lra).
  reflexivity.
Qed.

(** C5, as stated, fails on the code: the angle [float32(pi)] is
    normalized to [- float32(pi)], a number below [- pi]. *)
Theorem normalized_below_minus_pi :
  F32.is_finite F32.pi32 = true
  /\ normalized_th F32.pi32 = SFopp F32.pi32
  /\ F32.to_R (normalized_th F32.pi32) < - PI.
Proof.
  split; [reflexivity|].
  assert (Hn : normalized_th F32.pi32 = SFopp F32.pi32) by (vm_compute; reflexivity).
  split; [exact Hn|].
  rewrite Hn. pose proof PI_upper as Hpi. pose proof to_R_pi32 as Hv.
  unfold F32.to_R, F32.pi32, SFopp in *. cbn [negb cond_Zopp] in *.
  rewrite opp_IZR. lra.
Qed.

(** C5, amended: in single precision the normalized angle of every
    finite angle is a finite number from [- float32(pi)] on and under
    [float32(pi)]. *)
Theorem normalized_range (th : spec_float) :
  F32.is_finite th = true ->
  F32.is_finite (normalized_th th) = true
  /\ - F32.to_R F32.pi32 <= F32.to_R (normalized_th th) < F32.to_R F32.pi32.
Proof.
  intros Hth.
  destruct (normalized_th_ulps th Hth) as [Hfin Hrange].
  split; [exact Hfin|].
  pose proof (to_R_ulps _ Hfin) as Hn.
  pose proof (to_R_ulps F32.pi32 eq_refl) as Hp.
  change (F32.ulps F32.pi32) with (13176795 * 2 ^ 127)%Z in Hp.
  assert (Hpos : 0 < IZR (2 ^ 149)) by (apply IZR_lt; reflexivity).
  destruct Hrange as [Hlo Hhi].
  apply IZR_le in Hlo. apply IZR_lt in Hhi.
  rewrite opp_IZR in Hlo. rewrite <- Hn, <- Hp in Hlo. rewrite <- Hn, <- Hp in Hhi.
  split; nra.
Qed.

Lemma normalized_range_witness :
  F32.is_finite (normalized_th F32.two_pow_100) = true
  /\ - F32.to_R F32.pi32 <= F32.to_R (normalized_th F32.two_pow_100)
     < F32.to_R F32.pi32.
Proof. apply (normalized_range F32.two_pow_100). reflexivity. Defined.

(** C8, as stated, fails in single precision: the state (0, 2^100) and
    the control 0 are finite, and the cost is +infinity, because the
    square of 2^100 is beyond the largest [float32]. *)
Theorem cost_overflows :
  F32.is_finite F32.zero = true
  /\ F32.is_finite F32.two_pow_100 = true
  /\ pendulum_cost [[F32.zero; F32.two_pow_100; F32.zero]]
     = Some [[S754_infinity false]].
Proof. repeat split; vm_compute; reflexivity. Qed.

(** C8, amended: in single precision the cost of every finite state and
    control is never a NaN and never negative, and it is finite while the
    angular velocity and the control are under 2^62; beyond, a square
    can overflow to +infinity. *)
Theorem cost_not_negative (th thdot u : spec_float) :
  F32.is_finite th = true ->
  F32.is_finite thdot = true ->
  F32.is_finite u = true ->
  exists c : spec_float,
    pendulum_cost [[th; thdot; u]] = Some [[c]]
    /\ F32.is_nonneg c = true
    /\ (F32.below 62 thdot -> F32.below 62 u -> F32.is_finite c = true).
Proof.
  intros Hth Hthdot Hu.
  eexists. split; [reflexivity|]. split.
  - apply signed_nonneg, cost_signed.
    + apply normalized_th_not_nan, Hth.
    + apply is_finite_not_nan, Hthdot.
    + apply is_finite_not_nan, Hu.
  - intros Hbd Hbu.
    destruct (normalized_th_ulps th Hth) as [Hn Hrange].
    apply cost_finite; try assumption.
    apply ulps_below; [exact Hn | | lia].
    change (2 ^ (2 + 149))%Z with (16777216 * 2 ^ 127)%Z. lia.
Qed.

Lemma cost_not_negative_witness :
  exists c : spec_float,
    pendulum_cost [[F32.max32; F32.two_pow_60; F32.pi32]] = Some [[c]]
    /\ F32.is_nonneg c = true
    /\ F32.is_finite c = true.
Proof.
  destruct (cost_not_negative F32.max32 F32.two_pow_60 F32.pi32
              eq_refl eq_refl eq_refl) as (c & Hc & Hsign & Hfin).
  exists c. split; [exact Hc|]. split; [exact Hsign|].
  apply Hfin; cbn; lia.
Defined.

(** ** The harness: what the totals add up *)

Section HarnessFacts.
Context {T : Type} `{Arith T} `{Trig T} `{Cmp T}.
Variable E : Env T.
Variable sample : nat -> list T.

Lemma sum_of_flagged_snoc (ds : list T) (d : T) :
  sum_of_flagged (ds ++ [d]) =
  if tgeb d (lit float32_eps) then tadd (sum_of_flagged ds) d
  else sum_of_flagged ds.
Proof. unfold sum_of_flagged. rewrite fold_left_app. reflexivity. Qed.

Lemma account_flagged_totals tidx env_x_t1 env_loss_t k_res acc acc' :
  account tidx env_x_t1 env_loss_t k_res acc = Done acc' ->
  flagged_totals acc -> flagged_totals acc'.
Proof.
  unfold account, flagged_totals, state_diffs, loss_diffs.
  destruct (squared_difference _ _) as [sd|]; [|discriminate].
  destruct (squared_sum _ _) as [ld|]; [|discriminate].
  cbn [bind]. intros [= <-] [Hs Hl].
  destruct (tgeb sd (lit float32_eps)) eqn:Hsd;
    destruct (tgeb ld (lit float32_eps)) eqn:Hld;
    cbn [total_state_diff total_loss_diff diffs rev];
    rewrite !map_app; cbn [map fst snd];
    rewrite !sum_of_flagged_snoc, Hsd, Hld, <- Hs, <- Hl; split; reflexivity.
Qed.

Lemma loop_flagged_totals tidxs :
  forall env x_t acc r,
    compare_to_gym_loop E sample tidxs env x_t acc = Done r ->
    flagged_totals acc -> flagged_totals r.
Proof.
  induction tidxs as [|tidx rest IH]; intros env x_t acc r.
  - cbn. intros [= <-]. trivial.
  - cbn [compare_to_gym_loop].
    destruct (step E env (sample tidx)) as [env' [obs' loss]].
    destruct (predict _ _) as [k_res|]; [|discriminate].
    cbn [bind].
    destruct (account _ _ _ _ _) as [acc'|] eqn:Hacc; [|discriminate].
    cbn [bind]. intros Hrun Hinv.
    apply (IH _ _ _ _ Hrun).
    apply (account_flagged_totals _ _ _ _ _ _ Hacc Hinv).
Qed.

Lemma no_totals_flagged : flagged_totals no_totals.
Proof. split; reflexivity. Qed.

(** ** The harness: which runs finish *)

(** From its second step on, [compare_to_gym] feeds the model the state
    as a vector, which Keras reads as a column of samples with one
    feature each. *)
Lemma predict_vector (v u_t : list T) :
  predict (Arr1 v) (Arr2 [u_t]) = Raised ValueError.
Proof.
  unfold predict. cbn [T_ standardize bind length].
  destruct v as [|a v]; cbn.
  - rewrite andb_false_r. reflexivity.
  - reflexivity.
Qed.

Lemma single_loop_second_step tidx tidx' rest env x_t acc :
  exists e,
    compare_to_gym_loop E sample (tidx :: tidx' :: rest) env x_t acc = Raised e.
Proof.
  cbn [compare_to_gym_loop].
  destruct (step E env (sample tidx)) as [env' [obs' loss]].
  destruct (predict _ _) as [k_res|e]; [|eexists; reflexivity].
  cbn [bind].
  destruct (account _ _ _ _ _) as [acc'|e]; [|eexists; reflexivity].
  cbn [bind].
  destruct (step E env' (sample tidx')) as [env'' [obs'' loss']].
  cbn [T_]. unfold expand_dims_0. rewrite predict_vector. eexists; reflexivity.
Qed.

(** No run of [compare_to_gym] over two steps or more reports totals. *)
Theorem single_step_never_reports (time_steps : nat) (env : env_t E) :
  (2 <= time_steps)%nat ->
  exists e, compare_to_gym E sample time_steps env = Raised e.
Proof.
  intros Hn. unfold compare_to_gym.
  destruct (reset E env) as [env1 obs_t].
  destruct time_steps as [|[|n]]; try lia.
  cbn [seq]. apply single_loop_second_step.
Qed.

(** A simulator of the shape the model is built for: two state
    variables, one control. *)
Hypothesis state_shape : forall e, length (state E e) = 2%nat.
Hypothesis sample_shape : forall n, length (sample n) = 1%nat.

Lemma predict_row (a b u : T) :
  exists th' thdot' cost,
    predict (Arr2 [[a; b]]) (Arr2 [[u]]) = Done ([[th'; thdot']], [[cost]]).
Proof. do 3 eexists. reflexivity. Qed.

Lemma account_row tidx (a b loss th' thdot' cost : T) acc :
  exists acc',
    account tidx [a; b] loss ([[th'; thdot']], [[cost]]) acc = Done acc'.
Proof. eexists. reflexivity. Qed.

Lemma batched_loop_finishes total_us tidxs :
  forall env (a b : T) acc,
  exists r,
    compare_to_gym_batched_loop E sample total_us tidxs env (Arr2 [[a; b]]) acc
    = Done r.
Proof.
  induction tidxs as [|tidx rest IH]; intros env a b acc.
  - eexists. reflexivity.
  - cbn [compare_to_gym_batched_loop].
    destruct (step E env (sample (total_us + tidx))) as [env' [obs' loss]] eqn:Hstep.
    pose proof (sample_shape (total_us + tidx)) as Hu.
    destruct (sample (total_us + tidx)) as [|u [|? ?]]; try discriminate.
    pose proof (state_shape env') as Hx.
    destruct (state E env') as [|a' [|b' [|? ?]]]; try discriminate.
    unfold expand_dims_0.
    destruct (predict_row a b u) as (th' & thdot' & cost & ->).
    cbn [bind].
    destruct (account_row tidx a' b' loss th' thdot' cost acc) as [acc' ->].
    cbn [bind]. apply IH.
Qed.

Lemma presample_ok total_us : presample sample total_us = Done tt.
Proof.
  unfold presample.
  replace (forallb _ _) with true; [reflexivity|].
  symmetry. apply forallb_forall. intros n _.
  rewrite sample_shape. reflexivity.
Qed.

Lemma batched_finishes (time_steps : nat) (env : env_t E) :
  (0 < time_steps)%nat ->
  exists r, compare_to_gym_batched E sample 1 time_steps env = Done r.
Proof.
  intros Hn. unfold compare_to_gym_batched.
  destruct (reset E env) as [env1 o_t].
  rewrite presample_ok. cbn [bind].
  unfold store_first.
  destruct time_steps as [|n]; [lia|]. cbn [Nat.ltb Nat.leb andb bind].
  destruct (reset E env1) as [env2 obs_t].
  pose proof (state_shape env2) as Hx.
  destruct (state E env2) as [|a [|b [|? ?]]]; try discriminate.
  apply batched_loop_finishes.
Qed.

(** C3 fails at two time steps: on the same simulator and the same draws
    the single-step harness raises [ValueError] at its second step, and
    the batched harness with batch size 1 reports totals. *)
Theorem batched_reports_where_single_step_raises (env : env_t E) :
  compare_to_gym E sample 2 env = Raised ValueError
  /\ exists r, compare_to_gym_batched E sample 1 2 env = Done r.
Proof.
  split; [|apply batched_finishes; lia].
  unfold compare_to_gym.
  destruct (reset E env) as [env1 obs_t].
  pose proof (state_shape env1) as Hx.
  destruct (state E env1) as [|a [|b [|? ?]]]; try discriminate.
  cbn [seq compare_to_gym_loop].
  destruct (step E env1 (sample 0)) as [env' [obs' loss]].
  pose proof (sample_shape 0) as Hu.
  destruct (sample 0) as [|u [|? ?]]; try discriminate.
  change (T_ (Arr2 (expand_dims_1 [a; b]))) with (Arr2 [[a; b]]).
  unfold expand_dims_0.
  destruct (predict_row a b u) as (th' & thdot' & cost & ->).
  cbn [bind].
  pose proof (state_shape env') as Hx'.
  destruct (state E env') as [|a' [|b' [|? ?]]]; try discriminate.
  destruct (account_row 0 a' b' loss th' thdot' cost no_totals) as [acc' ->].
  cbn [bind].
  destruct (step E env' (sample 1)) as [env'' [obs'' loss']].
  cbn [T_]. rewrite predict_vector. reflexivity.
Qed.
End HarnessFacts.

Lemma single_step_never_reports_witness :
  (2 <= 3)%nat
  /\ exists e,
       compare_to_gym slightly_off_env (constant_sample 0) 3 (0, 0) = Raised e.
Proof.
  assert (Hn : (2 <= 3)%nat) by lia.
  split; [exact Hn|].
  exact (single_step_never_reports slightly_off_env (constant_sample 0) 3 (0, 0) Hn).
Defined.

(** ** A run in which a step stays under the threshold *)

Lemma predict_at_rest :
  predict (Arr2 [[0; 0]]) (Arr2 [[0]]) = Done ([[0; 0]], [[0]]).
Proof.
  unfold predict. cbn [standardize bind has_features forallb length Nat.eqb andb concatenate app].
  cbv [pendulum_dynamics pendulum_cost cols_to cols_from item nth_error map
       firstn skipn broadcast concatenate app].
  rewrite normalized_th_R.
  unfold_scalars. cbv zeta. eval_lits.
  pose proof PI_RGT_0 as Hpi.
  replace (0 + 1 / 1 * PI) with PI by lra.
  replace (0 + PI) with PI by lra.
  rewrite sin_PI, Rfloormod_small by lra.
  do 2 f_equal.
  - do 2 f_equal; [lra | f_equal; lra].
  - do 2 f_equal. lra.
Qed.

Lemma tgeb_eps_false (d : R) :
  d < Q2R float32_eps -> tgeb d (lit float32_eps) = false.
Proof.
  intros Hd. unfold tgeb. apply not_true_is_false.
  change (@lit R _ float32_eps) with (Q2R float32_eps).
  rewrite tleb_R. lra.
Qed.

Lemma eps_value : Q2R float32_eps = 1 / 8388608.
Proof. unfold float32_eps. rewrite Q2R_frac. reflexivity. Qed.

Lemma slightly_off_run :
  compare_to_gym slightly_off_env (constant_sample 0) 1 (0, 0) =
  Done {| total_state_diff := lit 0;
          total_loss_diff := lit 0;
          diffs := [(np_sum (np_square (Arr1 [1 / 10000 - 0; 0 - 0])),
                     np_sum (np_square (Arr0 (0 + 0))))];
          flags := [] |}.
Proof.
  unfold compare_to_gym, slightly_off_env, two_state_env, constant_sample.
  cbn [reset state step seq compare_to_gym_loop fst snd].
  change (T_ (Arr2 (expand_dims_1 [0; 0]))) with (Arr2 [[0; 0]]).
  unfold expand_dims_0. rewrite predict_at_rest. cbn [bind].
  unfold account, squared_difference, squared_sum.
  cbn [fst snd squeeze elementwise bcast_vec length Nat.eqb combine map bind
       no_totals total_state_diff total_loss_diff diffs flags].
  rewrite !tgeb_eps_false; [reflexivity | |].
  - rewrite eps_value. unfold np_sum, np_square. cbn.
    unfold_scalars. eval_lits. lra.
  - rewrite eps_value. unfold np_sum, np_square. cbn.
    unfold_scalars. eval_lits. lra.
Qed.

(** C4, as stated, fails on a one-step run whose squared state error is
    1e-8: the step is printed, and the reported total stays 0. *)
Theorem small_error_not_accumulated :
  exists r : totals R,
    compare_to_gym slightly_off_env (constant_sample 0) 1 (0, 0) = Done r
    /\ state_diffs r = [np_sum (np_square (Arr1 [1 / 10000 - 0; 0 - 0]))]
    /\ sum_of_all (state_diffs r) = 1 / 100000000
    /\ total_state_diff r = 0
    /\ total_state_diff r <> sum_of_all (state_diffs r).
Proof.
  eexists. split; [apply slightly_off_run|].
  assert (Hsum : sum_of_all [np_sum (np_square (Arr1 [1 / 10000 - 0; 0 - 0]))]
                 = 1 / 100000000).
  { unfold sum_of_all, np_sum, np_square. cbn. unfold_scalars. eval_lits. lra. }
  assert (Hzero : @lit R _ 0 = 0) by (unfold_scalars; eval_lits; lra).
  cbn [state_diffs diffs rev app map fst total_state_diff].
  rewrite Hsum, Hzero.
  repeat split; lra.
Qed.

Lemma batched_reports_where_single_step_raises_witness :
  compare_to_gym slightly_off_env (constant_sample 0) 2 (0, 0) = Raised ValueError
  /\ exists r,
       compare_to_gym_batched slightly_off_env (constant_sample 0) 1 2 (0, 0)
       = Done r.
Proof.
  apply (batched_reports_where_single_step_raises slightly_off_env (constant_sample 0)).
  - intros e. reflexivity.
  - intros n. reflexivity.
Defined.

(** ** Further facts about the harness and the model *)

Section MoreHarnessFacts.
Context {T : Type} `{Arith T} `{Trig T} `{Cmp T}.
Variable E : Env T.
Variable sample : nat -> list T.

Lemma batched_loop_flagged_totals total_us tidxs :
  forall env x_t acc r,
    compare_to_gym_batched_loop E sample total_us tidxs env x_t acc = Done r ->
    flagged_totals acc -> flagged_totals r.
Proof.
  induction tidxs as [|tidx rest IH]; intros env x_t acc r.
  - cbn. intros [= <-]. trivial.
  - cbn [compare_to_gym_batched_loop].
    destruct (step E env (sample (total_us + tidx))) as [env' [obs' loss]].
    destruct (predict _ _) as [k_res|]; [|discriminate].
    cbn [bind].
    destruct (account _ _ _ _ _) as [acc'|] eqn:Hacc; [|discriminate].
    cbn [bind]. intros Hrun Hinv.
    apply (IH _ _ _ _ Hrun).
    apply (account_flagged_totals _ _ _ _ _ _ Hacc Hinv).
Qed.

(** Over no time steps the single-step harness reports two zero totals
    and no flag; the batched harness has no slot [obs[0, 0]] to store the
    first observation in, and raises. *)
Theorem zero_time_steps (batch_size : nat) (env : env_t E) :
  compare_to_gym E sample 0 env = Done no_totals
  /\ compare_to_gym_batched E sample batch_size 0 env = Raised IndexError.
Proof.
  unfold compare_to_gym, compare_to_gym_batched.
  destruct (reset E env) as [env1 o_t].
  split; [reflexivity|].
  rewrite Nat.mul_0_r. cbn [presample seq forallb bind].
  unfold store_first. rewrite andb_false_r. reflexivity.
Qed.

(** Over one time step the two harnesses report the same, when a second
    [reset] leaves the simulator where the first one did and the two
    loops draw the same control. *)
Theorem one_time_step_agreement (env : env_t E) :
  (forall e, length (state E e) = 2%nat) ->
  (forall n, length (sample n) = 1%nat) ->
  fst (reset E (fst (reset E env))) = fst (reset E env) ->
  sample 1 = sample 0 ->
  compare_to_gym E sample 1 env = compare_to_gym_batched E sample 1 1 env.
Proof.
  intros Hstate Hsample Hreset Hdraw.
  unfold compare_to_gym, compare_to_gym_batched.
  destruct (reset E env) as [env1 o_t]. cbn [fst] in Hreset.
  rewrite presample_ok by exact Hsample. cbn [bind store_first Nat.ltb Nat.leb andb].
  destruct (reset E env1) as [env2 obs_t]. cbn [fst] in Hreset. subst env2.
  pose proof (Hstate env1) as Hx.
  destruct (state E env1) as [|a [|b [|? ?]]]; try discriminate.
  cbn [seq compare_to_gym_loop compare_to_gym_batched_loop Nat.mul Nat.add].
  rewrite Hdraw.
  change (T_ (Arr2 (expand_dims_1 [a; b]))) with (Arr2 (expand_dims_0 [a; b])).
  destruct (step E env1 (sample 0)) as [env' [obs' loss]].
  destruct (predict _ _) as [k_res|]; [|reflexivity].
  cbn [bind].
  destruct (account _ _ _ _ _); reflexivity.
Qed.
End MoreHarnessFacts.

Lemma one_time_step_agreement_witness :
  compare_to_gym slightly_off_env (constant_sample 0) 1 (0, 0)
  = compare_to_gym_batched slightly_off_env (constant_sample 0) 1 1 (0, 0).
Proof.
  apply (one_time_step_agreement slightly_off_env (constant_sample 0) (0, 0));
    intros; reflexivity.
Defined.

(** On a batch, every output row is computed from the state of the first
    row and the control of its own row. *)
Theorem dynamics_of_batch (th thdot u0 : R) (rows : list (R * R * R)) :
  let step_of u :=
    let thdot' := thdot + (- 15 * sin (th + PI) + 3 * u) * 0.05 in
    [th + thdot' * 0.05; thdot'] in
  pendulum_dynamics
    ([th; thdot; u0] :: map (fun '(a, b, u) => [a; b; u]) rows)
  = Some (step_of u0 :: map (fun '(a, b, u) => step_of u) rows).
Proof.
  cbv zeta.
  unfold pendulum_dynamics. cbn [cols_to cols_from item nth_error map firstn skipn].
  unfold broadcast. cbn [map concatenate app]. f_equal. f_equal.
  - unfold_scalars. eval_lits.
    replace (th + 1 / 1 * PI) with (th + PI) by lra.
    f_equal; [lra | f_equal; lra].
  - induction rows as [|[[a b] u] rows IH]; [reflexivity|].
    cbn [map concatenate app skipn]. f_equal; [|exact IH].
    unfold_scalars. eval_lits.
    replace (th + 1 / 1 * PI) with (th + PI) by lra.
    f_equal; [lra | f_equal; lra].
Qed.

(** ** Shapes and index errors of the model *)

Section ModelShapes.
Context {T : Type} `{Arith T} `{Trig T}.

(** The dynamics and the cost raise their index error exactly on a batch
    whose first row holds fewer than two numbers (an empty batch has no
    first row at all). *)
Theorem model_index_error (x : matrix T) :
  (pendulum_dynamics x = None <-> (length (hd [] x) < 2)%nat)
  /\ (pendulum_cost x = None <-> (length (hd [] x) < 2)%nat).
Proof.
  unfold pendulum_dynamics, pendulum_cost.
  rewrite !item_cols_to.
  destruct (hd [] x) as [|th [|thdot more]]; cbn [firstn nth_error length].
  - split; split; intros; [lia | reflexivity | lia | reflexivity].
  - split; split; intros; [lia | reflexivity | lia | reflexivity].
  - split; split; intros Hx; try discriminate Hx; lia.
Qed.

Lemma concatenate_lengths (f g : T -> T) (u : matrix T) :
  map (@length T) (concatenate (broadcast g (broadcast f u)) (broadcast f u)) =
  map (fun r => 2 * length r)%nat u.
Proof.
  unfold broadcast. induction u as [|r u IH]; cbn [map concatenate]; [reflexivity|].
  f_equal; [|exact IH].
  rewrite length_app, !length_map. lia.
Qed.

(** The shape of the outputs: one output row for every input row; for a
    row of [c] numbers, [2 * (c - 2)] numbers of next state and [c - 2]
    numbers of cost. *)
Theorem model_output_shape (x out : matrix T) :
  (pendulum_dynamics x = Some out ->
     map (@length T) out = map (fun row => 2 * (length row - 2))%nat x)
  /\ (pendulum_cost x = Some out ->
     map (@length T) out = map (fun row => length row - 2)%nat x).
Proof.
  unfold pendulum_dynamics, pendulum_cost.
  destruct (item 0 0 (cols_to 2 x)) as [th|]; [|split; discriminate].
  destruct (item 0 1 (cols_to 2 x)) as [thdot|]; [|split; discriminate].
  split; intros Hout; injection Hout as <-.
  - rewrite concatenate_lengths. unfold cols_from. rewrite map_map.
    apply map_ext. intros row. rewrite length_skipn. reflexivity.
  - unfold broadcast, cols_from. rewrite !map_map.
    apply map_ext. intros row. rewrite length_map, length_skipn. reflexivity.
Qed.
End ModelShapes.

(** ** One row of the model over the reals *)

(** One step on one row: gravity enters with the gain 0.75 on [sin th]
    and the torque with the gain 0.15. *)
Lemma dynamics_row (th thdot u : R) :
  pendulum_dynamics [[th; thdot; u]] =
  Some [[th + next_thdot th thdot u * 0.05; next_thdot th thdot u]].
Proof.
  cbv [pendulum_dynamics cols_to cols_from item nth_error map firstn skipn
       broadcast concatenate app next_thdot].
  unfold_scalars. cbv zeta. eval_lits.
  replace (th + 1 / 1 * PI) with (th + PI) by lra.
  rewrite neg_sin.
  do 3 f_equal; [lra | f_equal; lra].
Qed.

Lemma cost_row (th thdot u : R) :
  pendulum_cost [[th; thdot; u]] =
  Some [[normalized_th th * normalized_th th + 0.1 * (thdot * thdot)
         + 0.001 * (u * u)]].
Proof.
  cbv [pendulum_cost cols_to cols_from item nth_error map firstn skipn broadcast].
  generalize (normalized_th th). intros n.
  unfold_scalars. eval_lits. do 3 f_equal; lra.
Qed.

(** ** The goal checker: its lazy conjunction and its symmetries *)

(** On a state of one column the velocity [x[0, 1]] does not exist: the
    checker answers [False] when the angle test fails, since the [and]
    stops there, and raises when the angle test succeeds. *)
Theorem checker_one_column (th : R) :
  (1 - cos th <= Q2R float32_eps ->
     answer (pendulum_goal_checker [[th]]) = None)
  /\ (Q2R float32_eps < 1 - cos th ->
     answer (pendulum_goal_checker [[th]]) = Some false).
Proof.
  unfold pendulum_goal_checker. cbn [answer item nth_error].
  replace (tsub (lit 1) (tcos th)) with (1 - cos th)
    by (unfold_scalars; eval_lits; lra).
  change (@lit R _ float32_eps) with (Q2R float32_eps).
  split; intros Hth.
  - apply tleb_R in Hth. rewrite Hth. reflexivity.
  - destruct (tleb (1 - cos th) (Q2R float32_eps)) eqn:Hle; [|reflexivity].
    apply tleb_R in Hle. lra.
Qed.

Lemma cos_2kPI_shift (x : R) (k : Z) : cos (x + 2 * IZR k * PI) = cos x.
Proof.
  destruct k as [|p|p].
  - f_equal. lra.
  - rewrite <- (positive_nat_Z p), <- INR_IZR_INZ. apply cos_period.
  - rewrite <- (cos_period (x + 2 * IZR (Z.neg p) * PI) (Pos.to_nat p)).
    f_equal. rewrite INR_IZR_INZ, positive_nat_Z.
    change (Z.neg p) with (- Z.pos p)%Z. rewrite opp_IZR. lra.
Qed.

(** The checker does not see whole turns of the angle, nor its sign. *)
Theorem checker_symmetries (th thdot : R) (k : Z) :
  pendulum_goal_checker [[th + 2 * IZR k * PI; thdot]]
    = pendulum_goal_checker [[th; thdot]]
  /\ pendulum_goal_checker [[- th; thdot]] = pendulum_goal_checker [[th; thdot]].
Proof.
  rewrite !checker_one_row. split; do 3 f_equal.
  - rewrite cos_2kPI_shift. reflexivity.
  - rewrite cos_neg. reflexivity.
Qed.

(** ** The batched harness: when it reports, and what the batch size does *)

Section BatchedFacts.
Context {T : Type} `{Arith T} `{Trig T} `{Cmp T}.
Variable E : Env T.
Variable sample : nat -> list T.
Hypothesis state_shape : forall e, length (state E e) = 2%nat.
Hypothesis sample_shape : forall n, length (sample n) = 1%nat.

Lemma batched_reports (batch_size time_steps : nat) (env : env_t E) :
  (0 < batch_size)%nat -> (0 < time_steps)%nat ->
  exists r, compare_to_gym_batched E sample batch_size time_steps env = Done r.
Proof.
  intros Hb Hn. unfold compare_to_gym_batched.
  destruct (reset E env) as [env1 o_t].
  rewrite presample_ok by exact sample_shape. cbn [bind].
  unfold store_first.
  replace (Nat.ltb 0 batch_size) with true by (symmetry; apply Nat.ltb_lt; exact Hb).
  replace (Nat.ltb 0 time_steps) with true by (symmetry; apply Nat.ltb_lt; exact Hn).
  cbn [andb bind].
  destruct (reset E env1) as [env2 obs_t].
  pose proof (state_shape env2) as Hx.
  destruct (state E env2) as [|a [|b [|? ?]]]; try discriminate.
  apply (batched_loop_finishes E sample state_shape sample_shape).
Qed.

(** On a simulator of the pendulum's shape the batched harness reports
    totals exactly when there is a batch and a time step; otherwise it
    raises when it stores the first observation. *)
Theorem batched_reports_iff (batch_size time_steps : nat) (env : env_t E) :
  (exists r, compare_to_gym_batched E sample batch_size time_steps env = Done r)
  <-> (0 < batch_size /\ 0 < time_steps)%nat.
Proof.
  split; [|intros [Hb Hn]; apply batched_reports; assumption].
  unfold compare_to_gym_batched.
  destruct (reset E env) as [env1 o_t].
  rewrite presample_ok by exact sample_shape. cbn [bind].
  unfold store_first.
  destruct (Nat.ltb_spec 0 batch_size) as [Hb|Hb];
    destruct (Nat.ltb_spec 0 time_steps) as [Hn|Hn]; cbn [andb bind];
    intros [r Hr]; try discriminate Hr.
  split; assumption.
Qed.

Lemma batched_loop_draws (sample' : nat -> list T) (total_us total_us' : nat)
    (tidxs : list nat) :
  (forall t, sample' (total_us' + t)%nat = sample (total_us + t)%nat) ->
  forall env x_t acc,
    compare_to_gym_batched_loop E sample' total_us' tidxs env x_t acc
    = compare_to_gym_batched_loop E sample total_us tidxs env x_t acc.
Proof.
  intros Hdraw. induction tidxs as [|tidx rest IH]; intros env x_t acc.
  - reflexivity.
  - cbn [compare_to_gym_batched_loop]. rewrite Hdraw.
    destruct (step E env (sample (total_us + tidx)%nat)) as [env' [obs' loss]].
    destruct (predict _ _) as [k_res|]; [|reflexivity]. cbn [bind].
    destruct (account _ _ _ _ _) as [acc'|]; [|reflexivity]. cbn [bind].
    apply IH.
Qed.

(** The batch size only decides which draws the loop uses: a run with
    [batch_size] batches is the run with one batch on the draws that
    come [(batch_size - 1) * time_steps] later.  One trajectory is
    driven, whatever the batch size. *)
Theorem batch_size_shifts_draws (batch_size time_steps : nat) (env : env_t E) :
  (0 < batch_size)%nat ->
  compare_to_gym_batched E sample batch_size time_steps env
  = compare_to_gym_batched E
      (fun n => sample ((batch_size - 1) * time_steps + n)%nat) 1 time_steps env.
Proof.
  intros Hb. unfold compare_to_gym_batched.
  destruct (reset E env) as [env1 o_t].
  rewrite !presample_ok by (intros; apply sample_shape). cbn [bind].
  unfold store_first.
  replace (Nat.ltb 0 batch_size) with true by (symmetry; apply Nat.ltb_lt; exact Hb).
  change (Nat.ltb 0 1) with true.
  destruct (Nat.ltb 0 time_steps); cbn [andb bind]; [|reflexivity].
  destruct (reset E env1) as [env2 obs_t].
  symmetry. apply batched_loop_draws. intros t. f_equal. nia.
Qed.
End BatchedFacts.

Lemma batch_size_shifts_draws_witness :
  compare_to_gym_batched slightly_off_env (constant_sample 0%R) 2 3 (0%R, 0%R)
  = compare_to_gym_batched slightly_off_env
      (fun n => constant_sample 0%R ((2 - 1) * 3 + n)%nat) 1 3 (0%R, 0%R).
Proof.
  apply (batch_size_shifts_draws slightly_off_env (constant_sample 0%R)
           (fun n => eq_refl) 2 3 (0%R, 0%R)).
  lia.
Defined.

Lemma batched_reports_iff_witness :
  (exists r, compare_to_gym_batched slightly_off_env (constant_sample 0%R) 2 3
               (0%R, 0%R) = Done r)
  <-> (0 < 2 /\ 0 < 3)%nat.
Proof.
  exact (batched_reports_iff slightly_off_env (constant_sample 0%R)
           (fun e => eq_refl) (fun n => eq_refl) 2 3 (0%R, 0%R)).
Defined.

(** ** The batched harness: what is printed and what is flagged *)

Section FlagFacts.
Context {T : Type} `{Arith T} `{Trig T} `{Cmp T}.
Variable E : Env T.
Variable sample : nat -> list T.

(** What one pass through the shared part of the loop body adds to the
    log. *)
Lemma account_log tidx env_x_t1 env_loss_t k_res (acc acc' : totals T) :
  account tidx env_x_t1 env_loss_t k_res acc = Done acc' ->
  exists sd ld,
    diffs acc' = (sd, ld) :: diffs acc
    /\ flags acc' =
         (if tgeb ld (lit float32_eps) then [FlagLoss tidx] else [])
         ++ (if tgeb sd (lit float32_eps) then [FlagState tidx] else [])
         ++ flags acc.
Proof.
  unfold account.
  destruct (squared_difference _ _) as [sd|]; [|discriminate].
  destruct (squared_sum _ _) as [ld|]; [|discriminate].
  cbn [bind]. intros Hacc. injection Hacc as <-.
  exists sd, ld.
  destruct (tgeb sd (lit float32_eps)), (tgeb ld (lit float32_eps));
    split; reflexivity.
Qed.

Lemma nth_error_snoc {A} (l : list A) (x d : A) (t : nat) :
  nth_error (l ++ [x]) t = Some d
  <-> nth_error l t = Some d \/ (t = length l /\ d = x).
Proof.
  destruct (Nat.lt_ge_cases t (length l)) as [Hlt|Hge].
  - rewrite nth_error_app1 by exact Hlt. split; [auto|].
    intros [Hd | [Ht _]]; [exact Hd | lia].
  - rewrite nth_error_app2 by exact Hge.
    assert (Hnone : nth_error l t = None) by (apply nth_error_None; exact Hge).
    rewrite Hnone.
    destruct (t - length l)%nat as [|n] eqn:Hn; cbn.
    + split.
      * intros [= <-]. right. split; [lia | reflexivity].
      * intros [Hd | [_ ->]]; [discriminate | reflexivity].
    + split.
      * destruct n; discriminate.
      * intros [Hd | [Ht _]]; [discriminate | lia].
Qed.

Lemma account_flags_match tidx env_x_t1 env_loss_t k_res (acc acc' : totals T) :
  account tidx env_x_t1 env_loss_t k_res acc = Done acc' ->
  length (diffs acc) = tidx -> flags_match acc ->
  length (diffs acc') = S tidx /\ flags_match acc'.
Proof.
  intros Hacc Hlen Hinv.
  destruct (account_log _ _ _ _ _ _ Hacc) as (sd & ld & Hdiffs & Hflags).
  split; [rewrite Hdiffs; cbn; lia|].
  assert (Hlens : length (state_diffs acc) = tidx
                  /\ length (loss_diffs acc) = tidx).
  { unfold state_diffs, loss_diffs. rewrite !length_map, !length_rev. auto. }
  destruct Hlens as [Hls Hll].
  intros t. specialize (Hinv t). destruct Hinv as [HS HL].
  unfold state_diffs, loss_diffs in *.
  rewrite Hdiffs, Hflags. cbn [rev]. rewrite !map_app. cbn [map fst snd].
  split.
  - rewrite !in_app_iff, HS. split.
    + intros [Hin | [Hin | (d & Hd & Hge)]].
      * destruct (tgeb ld _); cbn in Hin; [destruct Hin as [Hin|[]]; discriminate | contradiction].
      * destruct (tgeb sd _) eqn:Hsd; cbn in Hin; [|contradiction].
        destruct Hin as [Hin|[]]. injection Hin as <-.
        exists sd. split; [|exact Hsd]. apply nth_error_snoc. right. auto.
      * exists d. split; [|exact Hge]. apply nth_error_snoc. left. exact Hd.
    + intros (d & Hd & Hge). apply nth_error_snoc in Hd as [Hd | [-> ->]].
      * right. right. eauto.
      * right. left. rewrite Hge, Hls. left. reflexivity.
  - rewrite !in_app_iff, HL. split.
    + intros [Hin | [Hin | (d & Hd & Hge)]].
      * destruct (tgeb ld _) eqn:Hld; cbn in Hin; [|contradiction].
        destruct Hin as [Hin|[]]. injection Hin as <-.
        exists ld. split; [|exact Hld]. apply nth_error_snoc. right. auto.
      * destruct (tgeb sd _); cbn in Hin; [destruct Hin as [Hin|[]]; discriminate | contradiction].
      * exists d. split; [|exact Hge]. apply nth_error_snoc. left. exact Hd.
    + intros (d & Hd & Hge). apply nth_error_snoc in Hd as [Hd | [-> ->]].
      * right. right. eauto.
      * left. rewrite Hge, Hll. left. reflexivity.
Qed.

Lemma batched_loop_flags_match total_us len :
  forall s env x_t acc r,
    compare_to_gym_batched_loop E sample total_us (seq s len) env x_t acc = Done r ->
    length (diffs acc) = s -> flags_match acc ->
    length (diffs r) = (s + len)%nat /\ flags_match r.
Proof.
  induction len as [|len IH]; intros s env x_t acc r.
  - cbn. intros [= <-] Hlen Hinv. split; [lia | exact Hinv].
  - cbn [seq compare_to_gym_batched_loop].
    destruct (step E env (sample (total_us + s)%nat)) as [env' [obs' loss]].
    destruct (predict _ _) as [k_res|]; [|discriminate]. cbn [bind].
    destruct (account _ _ _ _ _) as [acc'|] eqn:Hacc; [|discriminate]. cbn [bind].
    intros Hrun Hlen Hinv.
    destruct (account_flags_match _ _ _ _ _ _ Hacc Hlen Hinv) as [Hlen' Hinv'].
    destruct (IH _ _ _ _ _ Hrun Hlen' Hinv') as [Hfinal Hmatch].
    split; [lia | exact Hmatch].
Qed.

Lemma no_totals_flags_match : flags_match (@no_totals T _).
Proof.
  intros t. unfold state_diffs, loss_diffs. cbn.
  split; split; try contradiction; intros (d & Hd & _); destruct t; discriminate.
Qed.

(** A run of the batched harness that reports has printed one pair of
    differences for every time step, and has flagged exactly the steps
    whose printed difference reached single-precision epsilon. *)
Theorem batched_flags_are_the_large_steps (batch_size time_steps : nat)
    (env : env_t E) (r : totals T) :
  compare_to_gym_batched E sample batch_size time_steps env = Done r ->
  length (diffs r) = time_steps /\ flags_match r.
Proof.
  unfold compare_to_gym_batched.
  destruct (reset E env) as [env1 o_t].
  destruct (presample _ _); [|discriminate].
  destruct (store_first _ _); [|discriminate].
  cbn [bind].
  destruct (reset E env1) as [env2 obs_t].
  intros Hrun.
  apply (batched_loop_flags_match _ _ _ _ _ _ _ Hrun eq_refl no_totals_flags_match).
Qed.
End FlagFacts.

Lemma batched_flags_are_the_large_steps_witness :
  exists r,
    compare_to_gym_batched slightly_off_env (constant_sample 0) 1 1 (0, 0) = Done r
    /\ length (diffs r) = 1%nat /\ flags_match r.
Proof.
  destruct (batched_finishes slightly_off_env (constant_sample 0)
              (fun e => eq_refl) (fun n => eq_refl) 1 (0, 0) (Nat.lt_0_1)) as [r Hr].
  exists r. split; [exact Hr|].
  exact (batched_flags_are_the_large_steps slightly_off_env (constant_sample 0)
           1 1 (0, 0) r Hr).
Defined.

(** ** The harness on a simulator that agrees with the model *)

Lemma lit_0_R : @lit R _ 0 = 0.
Proof. unfold_scalars. eval_lits. lra. Qed.

Lemma tgeb_0_eps : tgeb 0 (@lit R _ float32_eps) = false.
Proof.
  unfold tgeb. apply not_true_is_false.
  change (@lit R _ float32_eps) with (Q2R float32_eps).
  rewrite tleb_R. pose proof eps_pos. lra.
Qed.

Lemma predict_one_row (th thdot u : R) :
  predict (Arr2 [[th; thdot]]) (Arr2 [[u]]) =
  match pendulum_dynamics [[th; thdot; u]], pendulum_cost [[th; thdot; u]] with
  | Some new_x, Some cost => Done (new_x, cost)
  | _, _ => Raised IndexError
  end.
Proof. reflexivity. Qed.

Lemma account_agree (tidx : nat) (a b c : R) (acc : totals R) :
  account tidx [a; b] (0 - c) ([[a; b]], [[c]]) acc =
  Done {| total_state_diff := total_state_diff acc;
          total_loss_diff := total_loss_diff acc;
          diffs := (0, 0) :: diffs acc;
          flags := flags acc |}.
Proof.
  unfold account, squared_difference, squared_sum.
  cbn [fst snd squeeze elementwise bcast_vec length Nat.eqb combine map bind].
  replace (np_sum (np_square (Arr1 [tsub a a; tsub b b]))) with 0.
  2:{ unfold np_sum, np_square. cbn. unfold_scalars. eval_lits. lra. }
  replace (np_sum (np_square (Arr0 (tadd (0 - c) c)))) with 0.
  2:{ unfold np_sum, np_square. cbn. unfold_scalars. eval_lits. lra. }
  rewrite tgeb_0_eps. reflexivity.
Qed.

Section Agreement.
Variable sample : nat -> list R.
Hypothesis sample_shape : forall n, length (sample n) = 1%nat.

Lemma agreeing_loop total_us tidxs :
  forall (e : R * R) (acc : totals R),
  exists r,
    compare_to_gym_batched_loop agreeing_env sample total_us tidxs e
      (Arr2 [[fst e; snd e]]) acc = Done r
    /\ total_state_diff r = total_state_diff acc
    /\ total_loss_diff r = total_loss_diff acc
    /\ flags r = flags acc
    /\ diffs r = repeat (0, 0) (length tidxs) ++ diffs acc.
Proof.
  induction tidxs as [|tidx rest IH]; intros e acc.
  - eexists. repeat split; reflexivity.
  - cbn [compare_to_gym_batched_loop].
    pose proof (sample_shape (total_us + tidx)) as Hu.
    destruct (sample (total_us + tidx)%nat) as [|u [|? ?]]; try discriminate.
    unfold expand_dims_0. rewrite predict_one_row.
    cbn [agreeing_env step state app].
    rewrite dynamics_row, cost_row. cbn [bind fst snd].
    rewrite account_agree. cbn [bind].
    match goal with
    | |- context [compare_to_gym_batched_loop _ _ _ _ ?e' (Arr2 [[?a; ?b]]) ?acc'] =>
        destruct (IH (a, b) acc') as (r & Hr & Hs & Hl & Hf & Hd)
    end.
    cbn [fst snd] in Hr. exists r. split; [exact Hr|].
    cbn [total_state_diff total_loss_diff flags diffs] in Hs, Hl, Hf, Hd.
    repeat split; try assumption.
    rewrite Hd. cbn [length repeat]. rewrite (repeat_cons (length rest)), <- app_assoc.
    reflexivity.
Qed.

(** When the simulator agrees with the model step for step, the batched
    harness reports two zero totals, flags no step, and prints a zero
    pair for every time step. *)
Theorem agreeing_simulator_no_divergence (batch_size time_steps : nat)
    (e : R * R) :
  (0 < batch_size)%nat -> (0 < time_steps)%nat ->
  exists r,
    compare_to_gym_batched agreeing_env sample batch_size time_steps e = Done r
    /\ total_state_diff r = 0 /\ total_loss_diff r = 0
    /\ flags r = []
    /\ diffs r = repeat (0, 0) time_steps.
Proof.
  intros Hb Hn. unfold compare_to_gym_batched.
  cbn [agreeing_env reset state].
  rewrite presample_ok by exact sample_shape. cbn [bind].
  unfold store_first.
  replace (Nat.ltb 0 batch_size) with true by (symmetry; apply Nat.ltb_lt; exact Hb).
  replace (Nat.ltb 0 time_steps) with true by (symmetry; apply Nat.ltb_lt; exact Hn).
  cbn [andb bind]. unfold expand_dims_0.
  destruct (agreeing_loop (batch_size * time_steps) (seq 0 time_steps) e no_totals)
    as (r & Hr & Hs & Hl & Hf & Hd).
  exists r. split; [exact Hr|].
  rewrite Hs, Hl, Hf, Hd, length_seq, app_nil_r.
  cbn [no_totals total_state_diff total_loss_diff flags diffs].
  rewrite lit_0_R. repeat split.
Qed.
End Agreement.

Lemma agreeing_simulator_no_divergence_witness :
  exists r,
    compare_to_gym_batched agreeing_env (constant_sample 1) 2 5 (1, 0) = Done r
    /\ total_state_diff r = 0 /\ total_loss_diff r = 0
    /\ flags r = []
    /\ diffs r = repeat (0, 0) 5.
Proof.
  apply (agreeing_simulator_no_divergence (constant_sample 1)
           (fun n => eq_refl) 2 5 (1, 0)); lia.
Defined.

(** ** The totals, the log and the flags of a run *)

Section TotalsFacts.
Context {T : Type} `{Arith T} `{Trig T} `{Cmp T}.
Variable E : Env T.
Variable sample : nat -> list T.

Lemma loop_flags_match len :
  forall s env x_t acc r,
    compare_to_gym_loop E sample (seq s len) env x_t acc = Done r ->
    length (diffs acc) = s -> flags_match acc ->
    length (diffs r) = (s + len)%nat /\ flags_match r.
Proof.
  induction len as [|len IH]; intros s env x_t acc r.
  - cbn. intros [= <-] Hlen Hinv. split; [lia | exact Hinv].
  - cbn [seq compare_to_gym_loop].
    destruct (step E env (sample s)) as [env' [obs' loss]].
    destruct (predict _ _) as [k_res|]; [|discriminate]. cbn [bind].
    destruct (account _ _ _ _ _) as [acc'|] eqn:Hacc; [|discriminate]. cbn [bind].
    intros Hrun Hlen Hinv.
    destruct (account_flags_match _ _ _ _ _ _ Hacc Hlen Hinv) as [Hlen' Hinv'].
    destruct (IH _ _ _ _ _ Hrun Hlen' Hinv') as [Hfinal Hmatch].
    split; [lia | exact Hmatch].
Qed.

(** C4, amended: a run of either harness that reports has printed one
    pair of squared errors for every time step; its totals are the sums
    of the squared errors that reached single-precision epsilon, and the
    flagged steps are those steps: a step whose squared error is under
    epsilon is printed, and is neither flagged nor added.  (The loop body
    of the batched harness repeats that of the single-step harness, which
    itself reports no run of more than one step.) *)
Theorem totals_are_flagged_sums (batch_size time_steps : nat) (env : env_t E)
    (r : totals T) :
  compare_to_gym E sample time_steps env = Done r
  \/ compare_to_gym_batched E sample batch_size time_steps env = Done r ->
  length (diffs r) = time_steps
  /\ total_state_diff r = sum_of_flagged (state_diffs r)
  /\ total_loss_diff r = sum_of_flagged (loss_diffs r)
  /\ flags_match r.
Proof.
  intros [Hrun | Hrun].
  - unfold compare_to_gym in Hrun.
    destruct (reset E env) as [env1 obs_t].
    destruct (loop_flags_match _ _ _ _ _ _ Hrun eq_refl no_totals_flags_match)
      as [Hlen Hmatch].
    destruct (loop_flagged_totals _ _ _ _ _ _ _ Hrun (no_totals_flagged)) as [Hs Hl].
    auto.
  - unfold compare_to_gym_batched in Hrun.
    destruct (reset E env) as [env1 o_t].
    destruct (presample _ _); [|discriminate].
    destruct (store_first _ _); [|discriminate].
    cbn [bind] in Hrun.
    destruct (reset E env1) as [env2 obs_t].
    destruct (batched_loop_flags_match _ _ _ _ _ _ _ _ _ Hrun eq_refl
                no_totals_flags_match) as [Hlen Hmatch].
    destruct (batched_loop_flagged_totals _ _ _ _ _ _ _ _ Hrun no_totals_flagged)
      as [Hs Hl].
    auto.
Qed.
End TotalsFacts.

Lemma tgeb_1_eps : tgeb 1 (@lit R _ float32_eps) = true.
Proof.
  unfold tgeb. change (@lit R _ float32_eps) with (Q2R float32_eps).
  apply tleb_R. pose proof eps_small. lra.
Qed.

(** The shared part of the loop body, when the model predicts the rest
    state at no cost and the simulator, which paid nothing, is found at
    angle [a], at rest. *)
Lemma account_from_rest (tidx : nat) (a : R) (acc : totals R) :
  account tidx [a; 0] 0 ([[0; 0]], [[0]]) acc =
  Done (if tgeb (a * a) (lit float32_eps)
        then {| total_state_diff := total_state_diff acc + a * a;
                total_loss_diff := total_loss_diff acc;
                diffs := (a * a, 0) :: diffs acc;
                flags := FlagState tidx :: flags acc |}
        else {| total_state_diff := total_state_diff acc;
                total_loss_diff := total_loss_diff acc;
                diffs := (a * a, 0) :: diffs acc;
                flags := flags acc |}).
Proof.
  unfold account, squared_difference, squared_sum.
  cbn [fst snd squeeze elementwise bcast_vec length Nat.eqb combine map bind].
  replace (np_sum (np_square (Arr1 [tsub a 0; tsub 0 0]))) with (a * a).
  2:{ unfold np_sum, np_square. cbn. unfold_scalars. eval_lits. lra. }
  replace (np_sum (np_square (Arr0 (tadd 0 0)))) with 0.
  2:{ unfold np_sum, np_square. cbn. unfold_scalars. eval_lits. lra. }
  rewrite tgeb_0_eps.
  destruct (tgeb (a * a) (lit float32_eps)); reflexivity.
Qed.

Lemma kicked_single_run :
  compare_to_gym (kicked_env 1) (constant_sample 0) 1 0%nat =
  Done {| total_state_diff := lit 0 + 1 * 1;
          total_loss_diff := lit 0;
          diffs := [(1 * 1, 0)];
          flags := [FlagState 0] |}.
Proof.
  unfold compare_to_gym, kicked_env, constant_sample.
  cbn [reset state step seq compare_to_gym_loop fst snd Nat.eqb].
  change (T_ (Arr2 (expand_dims_1 [0; 0]))) with (Arr2 [[0; 0]]).
  unfold expand_dims_0. rewrite predict_at_rest. cbn [bind].
  rewrite account_from_rest.
  replace (1 * 1) with 1 by lra. rewrite tgeb_1_eps. reflexivity.
Qed.

Lemma kicked_batched_run :
  compare_to_gym_batched (kicked_env 2) (constant_sample 0) 1 2 0%nat =
  Done {| total_state_diff := lit 0 + 1 * 1;
          total_loss_diff := lit 0;
          diffs := [(1 * 1, 0); (0 * 0, 0)];
          flags := [FlagState 1] |}.
Proof.
  unfold compare_to_gym_batched, kicked_env, constant_sample.
  cbn [reset state step seq compare_to_gym_batched_loop fst snd Nat.eqb Nat.mul Nat.add
       presample store_first forallb length andb Nat.ltb Nat.leb bind].
  unfold expand_dims_0. rewrite predict_at_rest. cbn [bind].
  rewrite account_from_rest.
  replace (tgeb (0 * 0) (lit float32_eps)) with false
    by (replace (0 * 0) with 0 by lra; symmetry; apply tgeb_0_eps).
  cbn [bind]. rewrite account_from_rest.
  cbn [total_state_diff total_loss_diff diffs flags no_totals].
  replace (tgeb (1 * 1) (lit float32_eps)) with true
    by (replace (1 * 1) with 1 by lra; symmetry; apply tgeb_1_eps).
  reflexivity.
Qed.

Lemma totals_are_flagged_sums_witness :
  (exists r : totals R,
     compare_to_gym (kicked_env 1) (constant_sample 0) 1 0%nat = Done r
     /\ (state_diffs r = [1] /\ flags r = [FlagState 0] /\ total_state_diff r = 1)
     /\ length (diffs r) = 1%nat
     /\ total_state_diff r = sum_of_flagged (state_diffs r)
     /\ total_loss_diff r = sum_of_flagged (loss_diffs r)
     /\ flags_match r)
  /\ (exists r : totals R,
        compare_to_gym_batched (kicked_env 2) (constant_sample 0) 1 2 0%nat = Done r
        /\ (state_diffs r = [0; 1] /\ flags r = [FlagState 1] /\ total_state_diff r = 1)
        /\ length (diffs r) = 2%nat
        /\ total_state_diff r = sum_of_flagged (state_diffs r)
        /\ total_loss_diff r = sum_of_flagged (loss_diffs r)
        /\ flags_match r).
Proof.
  split.
  - eexists. split; [apply kicked_single_run|]. split.
    + cbn [state_diffs diffs rev app map fst flags total_state_diff].
      rewrite lit_0_R. repeat split; try reflexivity; [f_equal|]; lra.
    + apply (totals_are_flagged_sums (kicked_env 1) (constant_sample 0) 1 1 0%nat).
      left. apply kicked_single_run.
  - eexists. split; [apply kicked_batched_run|]. split.
    + cbn [state_diffs diffs rev app map fst flags total_state_diff].
      rewrite lit_0_R. repeat split; try reflexivity; [f_equal; [|f_equal]|]; lra.
    + apply (totals_are_flagged_sums (kicked_env 2) (constant_sample 0) 1 2 0%nat).
      right. apply kicked_batched_run.
Defined.

(** ** What a zero total means *)

Lemma flagged_fold_ge (ds : list R) :
  forall a : R,
    a <= fold_left (fun total d => if tgeb d (lit float32_eps) then tadd total d else total) ds a
    /\ (fold_left (fun total d => if tgeb d (lit float32_eps) then tadd total d else total) ds a = a
        <-> Forall (fun d => tgeb d (lit float32_eps) = false) ds).
Proof.
  induction ds as [|d ds IH]; intros a; cbn [fold_left].
  - split; [lra|]. split; [constructor | reflexivity].
  - destruct (tgeb d (lit float32_eps)) eqn:Hd.
    + assert (Hpos : Q2R float32_eps <= d).
      { unfold tgeb in Hd. change (@lit R _ float32_eps) with (Q2R float32_eps) in Hd.
        apply tleb_R, Hd. }
      pose proof eps_pos as Heps.
      destruct (IH (tadd a d)) as [Hge _].
      change (tadd a d) with (a + d) in *.
      split; [lra|]. split.
      * intros Heq. lra.
      * intros Hall. inversion Hall as [|? ? Hd' _]. congruence.
    + destruct (IH a) as [Hge Hiff]. split; [exact Hge|].
      rewrite Hiff. split.
      * intros Hall. constructor; assumption.
      * intros Hall. inversion Hall. assumption.
Qed.

Section ZeroTotals.
Variable E : Env R.
Variable sample : nat -> list R.

(** A zero total of the batched harness says that no step was flagged,
    and no more: every printed difference stayed under single-precision
    epsilon, whatever it was. *)
Theorem zero_total_iff_no_flag (batch_size time_steps : nat) (env : env_t E)
    (r : totals R) :
  compare_to_gym_batched E sample batch_size time_steps env = Done r ->
  (total_state_diff r = 0 <-> forall t, ~ In (FlagState t) (flags r))
  /\ (total_loss_diff r = 0 <-> forall t, ~ In (FlagLoss t) (flags r)).
Proof.
  intros Hrun.
  assert (Htot : flagged_totals r).
  { revert Hrun. unfold compare_to_gym_batched.
    destruct (reset E env) as [env1 o_t].
    destruct (presample _ _); [|discriminate].
    destruct (store_first _ _); [|discriminate].
    cbn [bind]. destruct (reset E env1) as [env2 obs_t]. intros Hrun.
    apply (batched_loop_flagged_totals _ _ _ _ _ _ _ _ Hrun no_totals_flagged). }
  assert (Hmatch : flags_match r).
  { revert Hrun. unfold compare_to_gym_batched.
    destruct (reset E env) as [env1 o_t].
    destruct (presample _ _); [|discriminate].
    destruct (store_first _ _); [|discriminate].
    cbn [bind]. destruct (reset E env1) as [env2 obs_t]. intros Hrun.
    apply (batched_loop_flags_match _ _ _ _ _ _ _ _ _ Hrun eq_refl
             no_totals_flags_match). }
  destruct Htot as [Hs Hl].
  assert (Hzero : forall ds : list R,
            sum_of_flagged ds = 0
            <-> Forall (fun d => tgeb d (lit float32_eps) = false) ds).
  { intros ds. unfold sum_of_flagged. rewrite lit_0_R.
    apply (flagged_fold_ge ds 0). }
  assert (Hnone : forall ds : list R,
            Forall (fun d => tgeb d (lit float32_eps) = false) ds
            <-> forall t, ~ exists d, nth_error ds t = Some d
                                      /\ tgeb d (lit float32_eps) = true).
  { intros ds. rewrite Forall_forall. split.
    - intros Hall t (d & Hd & Hge). apply nth_error_In in Hd.
      rewrite (Hall d Hd) in Hge. discriminate.
    - intros Hno d Hin. apply In_nth_error in Hin as [t Ht].
      destruct (tgeb d (lit float32_eps)) eqn:Hge; [|reflexivity].
      exfalso. apply (Hno t). eauto. }
  split.
  - rewrite Hs, Hzero, Hnone.
    split; intros Hno t Hin; apply (Hno t); apply (Hmatch t); exact Hin.
  - rewrite Hl, Hzero, Hnone.
    split; intros Hno t Hin; apply (Hno t); apply (Hmatch t); exact Hin.
Qed.
End ZeroTotals.

Lemma zero_total_iff_no_flag_witness :
  exists r,
    compare_to_gym_batched slightly_off_env (constant_sample 0) 1 1 (0, 0) = Done r
    /\ (total_state_diff r = 0 <-> forall t, ~ In (FlagState t) (flags r))
    /\ (total_loss_diff r = 0 <-> forall t, ~ In (FlagLoss t) (flags r)).
Proof.
  destruct (batched_finishes slightly_off_env (constant_sample 0)
              (fun e => eq_refl) (fun n => eq_refl) 1 (0, 0) (Nat.lt_0_1)) as [r Hr].
  exists r. split; [exact Hr|].
  exact (zero_total_iff_no_flag slightly_off_env (constant_sample 0) 1 1 (0, 0) r Hr).
Defined.

(** ** Construction and the entry point *)

Section ConstructionFacts.
Context {T : Type} `{Arith T} `{Trig T} `{Cmp T}.

Lemma Pendulum_init_done :
  exists new_x cost : matrix T, Pendulum_init = Done (new_x, cost).
Proof. do 2 eexists. reflexivity. Qed.

(** The constructor's trial prediction never raises: it returns two next
    states and two costs, and both rows are computed from the state of
    the first sample: the state of the second sample can be anything. *)
Theorem init_self_test :
  exists (a b c d e f : T),
    Pendulum_init = Done ([[a; b]; [c; d]], [[e]; [f]])
    /\ forall th thdot : T,
         predict (Arr2 [[lit 1; lit 1]; [th; thdot]]) (Arr2 u_data)
         = Pendulum_init.
Proof.
  do 6 eexists. split.
  - reflexivity.
  - intros th thdot. reflexivity.
Qed.

Variable E : Env T.
Variable sample1 sample2 : nat -> list T.
Hypothesis state_shape : forall e, length (state E e) = 2%nat.
Hypothesis sample1_shape : forall n, length (sample1 n) = 1%nat.
Hypothesis sample2_shape : forall n, length (sample2 n) = 1%nat.

(** On simulators of the pendulum's shape [test()] raises only what the
    initialiser of the base class raises: when that one returns, the
    trial prediction and both comparisons complete, each comparison
    after a thousand time steps. *)
Theorem test_reports (Dynamics_init : outcome unit) (env1 env2 : env_t E) :
  match Dynamics_init with
  | Done _ =>
      exists r1 r2,
        test Dynamics_init E sample1 sample2 env1 env2 = Done (r1, r2)
        /\ length (diffs r1) = 1000%nat /\ length (diffs r2) = 1000%nat
  | Raised e => test Dynamics_init E sample1 sample2 env1 env2 = Raised e
  end.
Proof.
  destruct Dynamics_init as [[]|e]; [|reflexivity].
  assert (Hlog : forall sample b env r,
            compare_to_gym_batched E sample b default_time_steps env = Done r ->
            length (diffs r) = 1000%nat).
  { intros sample b env r. unfold compare_to_gym_batched.
    destruct (reset E env) as [e1 o_t].
    destruct (presample _ _); [|discriminate].
    destruct (store_first _ _); [|discriminate].
    cbn [bind]. destruct (reset E e1) as [e2 obs_t]. intros Hrun.
    apply (batched_loop_flags_match _ _ _ _ _ _ _ _ _ Hrun eq_refl
             no_totals_flags_match). }
  unfold test, Pendulum_new. cbn [bind].
  destruct Pendulum_init_done as (new_x & cost & ->). cbn [bind].
  assert (Hpos : (0 < default_time_steps)%nat) by (unfold default_time_steps; lia).
  destruct (batched_reports E sample1 state_shape sample1_shape
              1 default_time_steps env1 Nat.lt_0_1 Hpos) as [r1 Hr1].
  destruct (batched_reports E sample2 state_shape sample2_shape
              2 default_time_steps env2 Nat.lt_0_2 Hpos) as [r2 Hr2].
  rewrite Hr1. cbn [bind]. rewrite Hr2. cbn [bind].
  exists r1, r2. split; [reflexivity|].
  split; [exact (Hlog _ _ _ _ Hr1) | exact (Hlog _ _ _ _ Hr2)].
Qed.
End ConstructionFacts.

Lemma test_reports_witness :
  exists r1 r2,
    test (Done tt) slightly_off_env (constant_sample 0) (constant_sample 1)
      (0, 0) (0, 0)
    = Done (r1, r2)
    /\ length (diffs r1) = 1000%nat /\ length (diffs r2) = 1000%nat.
Proof.
  apply (test_reports slightly_off_env (constant_sample 0) (constant_sample 1)
           (fun e => eq_refl) (fun n => eq_refl) (fun n => eq_refl) (Done tt)).
Defined.
